(** * readme-generator: the collection and selection pipeline

    A shallow embedding of [readmegen/collector/collector.py] and of the
    selection part of [app.py], with the properties of the pipeline proved
    over it.

    Conventions of the embedding.
    - A Python [str] is a sequence of Unicode code points: [list N].
    - A [bytes] object is a list of octets: [list Byte.byte].
    - [len] is [length]; running totals are kept in [Z].
    - A dict used as a record of named fields ([row] in [build_selected])
      is a [gmap string value].
    - The file system is read through three primitives, as the code does:
      the listing produced by [os.walk], [Path.is_file] and [open]/[read]. *)

From Stdlib Require Import ZArith NArith Ascii String DecimalString Lia.
From stdpp Require Import base list strings gmap sorting.

Local Open Scope N_scope.

(** ** Python text primitives *)

Abbreviation str := (list N).

(** A literal, written as a Rocq string of ASCII characters. *)
Definition lit (s : string) : str :=
  (λ a, N_of_ascii a) <$> list_ascii_of_string s.

Definition LF : N := 10.
Definition CR : N := 13.
Definition EQ : N := 61.
Definition HASH : N := 35.
Definition SLASH : N := 47.
Definition BACKSLASH : N := 92.
Definition DOT : N := 46.

(** The characters [str.splitlines] breaks at. *)
Definition is_linebreak (c : N) : bool :=
  (c =? 10) || (c =? 11) || (c =? 12) || (c =? 13) ||
  (c =? 28) || (c =? 29) || (c =? 30) || (c =? 133) ||
  (c =? 8232) || (c =? 8233).

(** The characters [str.strip] and [str.lstrip] remove ([str.isspace]). *)
Definition is_space (c : N) : bool :=
  ((9 <=? c) && (c <=? 13)) || ((28 <=? c) && (c <=? 32)) ||
  (c =? 133) || (c =? 160) || (c =? 5760) ||
  ((8192 <=? c) && (c <=? 8202)) ||
  (c =? 8232) || (c =? 8233) || (c =? 8239) || (c =? 8287) || (c =? 12288).

(** [text.splitlines()]: the lines without their terminators; CR LF is one
    terminator; no empty last line after a final terminator. *)
Fixpoint splitlines (s : str) : list str :=
  match s with
  | [] => []
  | c :: s' =>
      if is_linebreak c then
        [] :: match s' with
              | d :: s'' => if (c =? CR) && (d =? LF) then splitlines s''
                            else splitlines s'
              | [] => []
              end
      else
        match splitlines s' with
        | [] => [[c]]
        | l :: ls => (c :: l) :: ls
        end
  end.

(** [sep.join(xs)] for a one-character separator. *)
Fixpoint join (sep : N) (xs : list str) : str :=
  match xs with
  | [] => []
  | [x] => x
  | x :: xs' => x ++ sep :: join sep xs'
  end.

Fixpoint lstrip (s : str) : str :=
  match s with
  | [] => []
  | c :: s' => if is_space c then lstrip s' else s
  end.

Fixpoint rstrip (s : str) : str :=
  match s with
  | [] => []
  | c :: s' =>
      match rstrip s' with
      | [] => if is_space c then [] else [c]
      | r => c :: r
      end
  end.

Definition strip (s : str) : str := rstrip (lstrip s).

(** [c in s] for a one-character [c]. *)
Definition contains (c : N) (s : str) : bool := existsb (N.eqb c) s.

(** [s.split(c, 1)[0]]: the text before the first [c]. *)
Fixpoint before_first (c : N) (s : str) : str :=
  match s with
  | [] => []
  | d :: s' => if d =? c then [] else d :: before_first c s'
  end.

Fixpoint startswith (s pre : str) {struct pre} : bool :=
  match pre, s with
  | [], _ => true
  | _ :: _, [] => false
  | p :: pre', c :: s' => (c =? p) && startswith s' pre'
  end.

(** [x in xs] for a collection of strings. *)
Definition str_in (x : str) (xs : list str) : bool := bool_decide (x ∈ xs).

(** ** collector.py: constants *)

Definition MAX_FILE_BYTES : Z := 512 * 1024.
Definition MAX_TOTAL_BYTES : Z := 5 * 1024 * 1024.
Definition LOCK_MAX_LINES : nat := 200.
Definition CONFIG_MAX_LINES : nat := 800.

Definition PLACEHOLDER : str := Eval cbv in lit "=<YOUR_VALUE>".

Definition TRUNCATED : str :=
  Eval cbv in [LF; LF] ++ lit "# ...truncated..." ++ [LF].

(** ** collector.py: [sanitize_env] *)

(** The body of the [for] loop: the string appended to [out] for one line. *)
Definition sanitize_line (line : str) : str :=
  if contains EQ line && negb (startswith (lstrip line) [HASH]) then
    let k := strip (before_first EQ line) in
    match k with
    | [] => line
    | _ => k ++ PLACEHOLDER
    end
  else line.

Definition sanitize_env (text : str) : str :=
  let out :=
    foldl (λ out line, out ++ [sanitize_line line]) [] (splitlines text) in
  join LF out.

(** ** collector.py: [head_lines] *)

(** The slice [l[:n]] for an [int] [n]: the first [n] items, and for a
    negative [n] all but the last [-n] (none when [l] is shorter). *)
Definition slice_to {A} (n : Z) (l : list A) : list A :=
  if bool_decide (0 ≤ n)%Z then take (Z.to_nat n) l
  else take (length l - Z.to_nat (- n)) l.

(** The cap [n] is an [int]: a negative one is below every line count, so
    the text is always cut, and [lines[:n]] then drops lines from the end. *)
Definition head_lines (text : str) (n : Z) : str :=
  let lines := splitlines text in
  if bool_decide (Z.of_nat (length lines) ≤ n)%Z then text
  else join LF (slice_to n lines) ++ TRUNCATED.

(** ** Decoding: [bytes.decode("utf-8", errors="ignore")] *)

(** The decoder reads one octet at a time.  After a lead octet it waits for
    [need] continuation octets; the next one must lie in [lo..hi] (the
    narrowed ranges after E0, ED, F0 and F4 exclude overlong forms,
    surrogates and values above U+10FFFF). *)
Inductive dstate :=
  | Start
  | Pending (need : nat) (acc lo hi : N).

(** An octet met in state [Start]: an ASCII octet is emitted, a lead octet
    opens a sequence, any other octet is an invalid start and is ignored. *)
Definition start_byte (b : N) : str * dstate :=
  if b <? 0x80 then ([b], Start)
  else if b <? 0xC2 then ([], Start)
  else if b <? 0xE0 then ([], Pending 1 (b - 0xC0) 0x80 0xBF)
  else if b <? 0xF0 then
    ([], Pending 2 (b - 0xE0) (if b =? 0xE0 then 0xA0 else 0x80)
                              (if b =? 0xED then 0x9F else 0xBF))
  else if b <? 0xF5 then
    ([], Pending 3 (b - 0xF0) (if b =? 0xF0 then 0x90 else 0x80)
                              (if b =? 0xF4 then 0x8F else 0xBF))
  else ([], Start).

(** With [errors="ignore"] the octets of a malformed or unfinished sequence
    are dropped and decoding resumes at the octet that broke it. *)
Fixpoint decode_from (st : dstate) (bs : list Byte.byte) : str :=
  match bs with
  | [] => []
  | b :: bs' =>
      let c := Byte.to_N b in
      let restart := let '(out, st') := start_byte c in
                     out ++ decode_from st' bs' in
      match st with
      | Pending (S n) acc lo hi =>
          if (lo <=? c) && (c <=? hi) then
            let acc' := acc * 64 + (c - 0x80) in
            match n with
            | O => acc' :: decode_from Start bs'
            | S _ => decode_from (Pending n acc' 0x80 0xBF) bs'
            end
          else restart
      | _ => restart
      end
  end.

Definition decode_utf8_ignore (bs : list Byte.byte) : str := decode_from Start bs.

(** ** Paths *)

(** A path below the resolved root, as its components. *)
Abbreviation relpath := (list (list N)).

(** [Path.name] of [dp / fn]. *)
Definition path_name (p : relpath) : str := default [] (last p).

Fixpoint rfind (c : N) (s : str) : option nat :=
  match s with
  | [] => None
  | d :: s' =>
      match rfind c s' with
      | Some i => Some (S i)
      | None => if d =? c then Some O else None
      end
  end.

(** [Path.suffix], as pathlib computes it up to Python 3.12: the part of
    the name from its last dot on, unless that dot is the first or the last
    character. *)
Definition suffix (name : str) : str :=
  match rfind DOT name with
  | Some i => if bool_decide (0 < i ∧ i < length name - 1)%nat
              then drop i name else []
  | None => []
  end.

(** [s.replace(a, b)] for one-character [a] and [b]. *)
Definition replace (a b : N) (s : str) : str :=
  (λ c, if c =? a then b else c) <$> s.

(** [s.split(c)]. *)
Fixpoint split_on (c : N) (s : str) : list str :=
  match s with
  | [] => [[]]
  | d :: s' =>
      if d =? c then [] :: split_on c s'
      else match split_on c s' with
           | [] => [[d]]
           | l :: ls => (d :: l) :: ls
           end
  end.

(** [Path(rel).name] for a slash-separated string: its last component,
    empty and [.] components not counting. *)
Definition rel_name (rel : str) : str :=
  default []
    (last (filter (λ part, part ≠ [] ∧ part ≠ [DOT]) (split_on SLASH rel))).

(** [str.lower], on the letters A to Z.  The only use compares the result
    with four ASCII names, and no character outside A to Z lowers to one of
    their letters. *)
Definition lower (s : str) : str :=
  (λ c, if (65 <=? c) && (c <=? 90) then c + 32 else c) <$> s.

(** [str(p.relative_to(rootp)).replace("\\", "/")]. *)
Definition rel_of (p : relpath) : str := replace BACKSLASH SLASH (join SLASH p).

Definition README_NAMES : list str :=
  Eval cbv in [lit "readme"; lit "readme.md"; lit "readme.rst"; lit "readme.txt"].

Definition CONFIG_EXTS : list str :=
  Eval cbv in [lit ".json"; lit ".yaml"; lit ".yml"].

Definition ENV_PREFIX : str := Eval cbv in lit ".env".
Definition LOCK_EXT : str := Eval cbv in lit ".lock".

(** ** Order on strings and [sorted] *)

(** Python compares strings code point by code point. *)
Fixpoint str_leb (a b : str) : bool :=
  match a, b with
  | [], _ => true
  | _ :: _, [] => false
  | x :: a', y :: b' => (x <? y) || ((x =? y) && str_leb a' b')
  end.

Definition str_le (a b : str) : Prop := str_leb a b = true.

#[global] Instance str_le_dec : RelDecision str_le.
Proof. intros a b. unfold str_le. apply _. Defined.

(** [sorted(filenames)]. *)
Definition sorted (xs : list str) : list str := merge_sort str_le xs.


(** ** The file system as the collector sees it *)

(** What [open(path, "rb")] followed by [read] gives. *)
Inductive read_result :=
  | OSError
  | Data (bs : list Byte.byte).

(** [is_file p] is the answer of [p.is_file()] when the call returns; the
    case that it raises is added in [collect_r] below. *)
Record filesys := {
  is_file : relpath → bool;
  open_rb : relpath → read_result
}.

(** What [os.walk] yields for one directory: the names of its
    subdirectories and of its other entries, in the order of the directory
    scan.  A subdirectory the walk does not enter (a symbolic link, or a
    directory whose scan fails) carries [None]. *)
#[local] Unset Elimination Schemes.
Inductive listing :=
  | Listing (dirnames : list (list N * option listing)) (filenames : list str).
#[local] Set Elimination Schemes.

Record Document := { source : str; content : str }.

(** The local variables [docs], [seen] and [total] of [collect]. *)
Record cstate := { docs : list Document; seen : gset (list N); total : Z }.

(** The loop body either goes on with a new state or returns. *)
Inductive outcome :=
  | Running (st : cstate)
  | Returned (ds : list Document).

Definition init_state : cstate := {| docs := []; seen := ∅; total := 0 |}.

(** ** collector.py: filters, [read_with_rules], [collect] *)

Section collector.

(** The name tables of [readmegen.collector.import_filenames]. *)
Variables INCLUDE_EXTS KEY_FILENAMES LOCK_BASENAMES SKIP_DIRS : gset (list N).

Variable fs : filesys.

Definition should_include (p : relpath) : bool :=
  bool_decide (suffix (path_name p) ∈ INCLUDE_EXTS)
  || bool_decide (path_name p ∈ KEY_FILENAMES)
  || startswith (path_name p) ENV_PREFIX.

Definition is_lock_like (p : relpath) : bool :=
  bool_decide (path_name p ∈ LOCK_BASENAMES)
  || bool_decide (suffix (path_name p) = LOCK_EXT).

Definition read_bytes_as_text (p : relpath) (max_bytes : Z) : str :=
  match open_rb fs p with
  | Data bs => decode_utf8_ignore (take (Z.to_nat max_bytes) bs)
  | OSError => []
  end.

Definition read_with_rules (p : relpath) : str :=
  let raw := read_bytes_as_text p MAX_FILE_BYTES in
  let raw := if startswith (path_name p) ENV_PREFIX
             then sanitize_env raw else raw in
  if is_lock_like p then head_lines raw (Z.of_nat LOCK_MAX_LINES)
  else if str_in (suffix (path_name p)) CONFIG_EXTS
       then head_lines raw (Z.of_nat CONFIG_MAX_LINES)
  else raw.

Variable include_readme : bool.

(** The body of the inner loop for the file [fn] of directory [dp]. *)
Definition visit_file (dp : relpath) (fn : str) (st : cstate) : outcome :=
  let p := dp ++ [fn] in
  if negb (is_file fs p) then Running st else
  let rel := rel_of p in
  let name := lower (rel_name rel) in
  if negb include_readme && str_in name README_NAMES then Running st else
  if negb (should_include p) || bool_decide (rel ∈ seen st) then Running st
  else
    let text := read_with_rules p in
    let st' := {| docs := docs st ++ [{| source := rel; content := text |}];
                  seen := {[rel]} ∪ seen st;
                  total := (total st + Z.of_nat (length text))%Z |} in
    if (MAX_TOTAL_BYTES <=? total st')%Z then Returned (docs st')
    else Running st'.

(** [for fn in sorted(filenames)], entered with the list already sorted. *)
Fixpoint files_loop (dp : relpath) (fns : list str) (st : cstate) : outcome :=
  match fns with
  | [] => Running st
  | fn :: rest =>
      match visit_file dp fn st with
      | Running st' => files_loop dp rest st'
      | Returned ds => Returned ds
      end
  end.

(** The walk below directory [dp]: its subdirectories in scan order, those
    named in [SKIP_DIRS] pruned, each walked by [walk]. *)
Definition walk_subdirs (walk : relpath → listing → cstate → outcome)
    (dp : relpath) :=
  fix subdirs (ds : list (list N * option listing)) (st : cstate)
    : outcome :=
    match ds with
    | [] => Running st
    | (d, sub) :: rest =>
        if bool_decide (d ∈ SKIP_DIRS) then subdirs rest st
        else
          match sub with
          | None => subdirs rest st
          | Some t' =>
              match walk (dp ++ [d]) t' st with
              | Running st' => subdirs rest st'
              | Returned r => Returned r
              end
          end
    end.

(** The outer loop over [os.walk], top down: the files of a directory
    first, then its subdirectories. *)
Fixpoint walk (dp : relpath) (t : listing) (st : cstate) : outcome :=
  match t with
  | Listing dirnames filenames =>
      match files_loop dp (sorted filenames) st with
      | Returned ds => Returned ds
      | Running st1 => walk_subdirs walk dp dirnames st1
      end
  end.

(** [collect(root, include_readme)["docs"]]; [root] is the listing of the
    resolved root directory. *)
Definition collect (root : listing) : list Document :=
  match walk [] root init_state with
  | Running st => docs st
  | Returned ds => ds
  end.

(** *** The walk as one sequence of visits *)

(** The files in the order the two loops reach them, each with its
    directory. *)
Definition visit_subdirs (vo : relpath → listing → list (relpath * list N))
    (dp : relpath) :=
  fix subdirs (ds : list (list N * option listing)) : list (relpath * list N) :=
    match ds with
    | [] => []
    | (d, sub) :: rest =>
        (if bool_decide (d ∈ SKIP_DIRS) then []
         else match sub with
              | None => []
              | Some t' => vo (dp ++ [d]) t'
              end) ++ subdirs rest
    end.

Fixpoint visit_order (dp : relpath) (t : listing) : list (relpath * list N) :=
  match t with
  | Listing dirnames filenames =>
      ((λ fn, (dp, fn)) <$> sorted filenames)
      ++ visit_subdirs visit_order dp dirnames
  end.

(** The loop body run over a sequence of visits. *)
Fixpoint run (vs : list (relpath * list N)) (st : cstate) : outcome :=
  match vs with
  | [] => Running st
  | (dp, fn) :: rest =>
      match visit_file dp fn st with
      | Running st' => run rest st'
      | Returned ds => Returned ds
      end
  end.

(** The tests of the loop body that do not look at [seen]. *)
Definition eligible (p : relpath) : bool :=
  is_file fs p
  && negb (negb include_readme
           && str_in (lower (rel_name (rel_of p))) README_NAMES)
  && should_include p.

(** The document each eligible visit would give, were every one kept. *)
Definition candidates (vs : list (relpath * list N)) : list Document :=
  omap (λ v, let p := v.1 ++ [v.2] in
             if eligible p
             then Some {| source := rel_of p; content := read_with_rules p |}
             else None) vs.

(** The text the line caps of [read_with_rules] apply to: the decoded
    text, sanitized first when the name starts with [.env]. *)
Definition capped_text (p : relpath) : str :=
  let raw := read_bytes_as_text p MAX_FILE_BYTES in
  if startswith (path_name p) ENV_PREFIX then sanitize_env raw else raw.

End collector.

(** The first document of each source, in order; [seen] holds the sources
    already taken. *)
Fixpoint first_by_source (seen : gset (list N)) (cs : list Document)
    : list Document :=
  match cs with
  | [] => []
  | c :: rest =>
      if bool_decide (source c ∈ seen) then first_by_source seen rest
      else c :: first_by_source ({[source c]} ∪ seen) rest
  end.

(** The state after [docs.append], [seen.add] and [total += len(text)]. *)
Definition add_doc (d : Document) (st : cstate) : cstate :=
  {| docs := docs st ++ [d];
     seen := {[source d]} ∪ seen st;
     total := (total st + Z.of_nat (length (content d)))%Z |}.

(** The sum of the lengths of the [content] fields. *)
Definition sum_len (ds : list Document) : Z :=
  foldr (λ d acc, (Z.of_nat (length (content d)) + acc)%Z) 0%Z ds.

(** The loop invariant on [total]: it is the sum of the lengths collected
    so far, and it is below the budget whenever the loop goes on. *)
Definition within_budget (st : cstate) : Prop :=
  total st = sum_len (docs st) ∧ (total st < MAX_TOTAL_BYTES)%Z.

(** Two listings of one tree that differ at most in the order in which the
    scan of each directory reports its files. *)
#[local] Unset Elimination Schemes.
Inductive same_tree : listing → listing → Prop :=
  | same_Listing ds ds' fns fns' :
      fns ≡ₚ fns' →
      Forall2 (λ x y, x.1 = y.1 ∧ option_Forall2 same_tree x.2 y.2) ds ds' →
      same_tree (Listing ds fns) (Listing ds' fns').
#[local] Set Elimination Schemes.

(** A code point that a Python [str] decoded from UTF-8 can hold. *)
Definition is_scalar (c : N) : Prop :=
  c < 0x110000 ∧ ¬ (0xD800 ≤ c ∧ c ≤ 0xDFFF).


(** A line as [splitlines] yields it: no line terminator inside. *)
Definition one_line (l : str) : Prop := Forall (λ c, is_linebreak c = false) l.

(** The states the decoder can be in: the bounds that make every emitted
    code point a scalar value. *)
Definition dstate_ok (st : dstate) : Prop :=
  match st with
  | Start => True
  | Pending 1 acc lo hi =>
      0x80 ≤ lo ∧ hi ≤ 0xBF ∧ acc ≤ 0x43FF ∧ ¬ (0x360 ≤ acc ∧ acc ≤ 0x37F)
  | Pending 2 acc lo hi =>
      0x80 ≤ lo ∧ hi ≤ 0xBF ∧ acc ≤ 0x10F ∧ (acc = 13 → hi ≤ 0x9F)
  | Pending 3 acc lo hi =>
      0x80 ≤ lo ∧ hi ≤ 0xBF ∧ acc ≤ 4 ∧
      (acc = 0 → 0x90 ≤ lo) ∧ (acc = 4 → hi ≤ 0x8F)
  | Pending _ _ _ _ => False
  end.

(** ** Name tables and inputs of the examples *)

(** The tables of [readmegen/collector/import_filenames.py] are not among
    the sources.  The general results take them as parameters; the closed
    examples use the members that the example run of the spec relies on. *)

(** Modelled from the spec: [INCLUDE_EXTS] of [import_filenames.py], with
    the extension of [app.py], which the spec calls always eligible. *)
Definition EX_INCLUDE_EXTS : gset (list N) := {[ lit ".py" ]}.

(** Modelled from the spec: [KEY_FILENAMES] of [import_filenames.py], with
    [package-lock.json], which the example run collects. *)
Definition EX_KEY_FILENAMES : gset (list N) := {[ lit "package-lock.json" ]}.

(** Modelled from the spec: [LOCK_BASENAMES] of [import_filenames.py], with
    [package-lock.json], which the example run cuts to 200 lines. *)
Definition EX_LOCK_BASENAMES : gset (list N) := {[ lit "package-lock.json" ]}.

(** Modelled from the spec: [SKIP_DIRS] of [import_filenames.py], with
    [node_modules], which the example run prunes. *)
Definition EX_SKIP_DIRS : gset (list N) := {[ lit "node_modules" ]}.

(** The octets of an ASCII literal. *)
Definition octets (s : string) : list Byte.byte := list_byte_of_string s.

(** A file system in which every file holds the one line [A=b]. *)
Definition fs_one_line : filesys :=
  {| is_file := λ _, true;
     open_rb := λ _, Data (octets "A=b") |}.

(** A file system in which every file holds 200 lines [x], each ended by
    LF, and one more LF: 201 lines, the last one empty. *)
Definition fs_201_lines : filesys :=
  {| is_file := λ _, true;
     open_rb := λ _, Data (concat (repeat [Byte.x78; Byte.x0a] 200)
                           ++ [Byte.x0a]) |}.

(** The example run of the spec: [app.py], [node_modules/x.js], [.env] with
    [API_KEY=secret123], and [package-lock.json] with 5000 lines. *)
Definition fs_spec_example : filesys :=
  {| is_file := λ _, true;
     open_rb := λ p,
       if bool_decide (p = [lit ".env"]) then Data (octets "API_KEY=secret123")
       else if bool_decide (p = [lit "package-lock.json"])
            then Data (concat (repeat [Byte.x7b; Byte.x7d; Byte.x0a] 5000))
       else Data (octets "print(1)") |}.

Definition tree_spec_example : listing :=
  Listing [(lit "node_modules", Some (Listing [] [lit "x.js"]))]
    [lit "package-lock.json"; lit "app.py"; lit ".env"].


(** A file system in which every file holds 524287 octets [a], one less
    than [MAX_FILE_BYTES]. *)
Definition big_size : nat := Z.to_nat 524287.

Definition fs_big : filesys :=
  {| is_file := λ _, true;
     open_rb := λ _, Data (repeat Byte.x61 big_size) |}.

Definition big_text : str := repeat 97 big_size.

(** Eleven files in the root, named [.env0] to [.env9] and [.enva]. *)
Definition big_names : list str :=
  Eval cbv in
    [lit ".env0"; lit ".env1"; lit ".env2"; lit ".env3"; lit ".env4";
     lit ".env5"; lit ".env6"; lit ".env7"; lit ".env8"; lit ".env9";
     lit ".enva"].

Definition big_tree : listing := Listing [] big_names.

(** A root with the file [a\b] and the directory [a] holding the file [b]:
    both have the normalized relative path [a/b]. *)
Definition fs_clash : filesys :=
  {| is_file := λ _, true;
     open_rb := λ p, if bool_decide (p = [lit "a\b.py"])
                     then Data (octets "first") else Data (octets "second") |}.

Definition tree_clash : listing :=
  Listing [(lit "a", Some (Listing [] [lit "b.py"]))] [lit "a\b.py"].

(** One directory, its two files reported in either order. *)
Definition tree_ab : listing := Listing [] [lit "a.py"; lit "b.py"].
Definition tree_ba : listing := Listing [] [lit "b.py"; lit "a.py"].

Definition big_doc (name : list N) : Document :=
  {| source := name; content := big_text |}.

(** ** app.py: the selection *)

(** The values held by the dicts the selection builds. *)
Inductive value :=
  | VStr (s : list N)
  | VInt (z : Z)
  | VBool (b : bool).

(** The pydantic model [FileAssessment] of [assessor.py]. *)
Record FileAssessment := {
  path : list N;
  score : Z;
  include : bool;
  reason : list N;
  summary : list N
}.

(** A selected item: a dict from field names to values. *)
Abbreviation row := (gmap string value).

(** [a.model_dump()]. *)
Definition model_dump (a : FileAssessment) : row :=
  <["path" := VStr (path a)]>
    (<["score" := VInt (score a)]>
       (<["include" := VBool (include a)]>
          (<["reason" := VStr (reason a)]>
             (<["summary" := VStr (summary a)]> ∅)))).

(** Python truth of a value. *)
Definition truthy (v : value) : bool :=
  match v with
  | VStr s => bool_decide (s ≠ [])
  | VInt z => bool_decide (z ≠ 0%Z)
  | VBool b => b
  end.

(** [x or y], where [x] is the result of [dict.get]: [None] when the key
    is missing. *)
Definition or_else (x : option value) (y : value) : value :=
  match x with
  | Some v => if truthy v then v else y
  | None => y
  end.

(** The dict built for a pair that passes the test. *)
Definition select_row (a : FileAssessment) (src : Document) : row :=
  let row0 := model_dump a in
  let row1 := delete "summary" row0 in
  let row2 := <["content" := VStr (content src)]> row1 in
  <["path" := or_else (row2 !! "path") (VStr (source src))]> row2.

(** The body of the loop of [build_selected].  The objects are
    [FileAssessment]s and the documents have both keys, so nothing in the
    [try] block raises and [logs] is left as it was. *)
Definition select_step (relevance : Z) (selected : list row)
    (pair : FileAssessment * Document) : list row :=
  let a := pair.1 in
  let src := pair.2 in
  let ok := include a && bool_decide (relevance ≤ score a)%Z in
  if ok then selected ++ [select_row a src] else selected.

(** The item the fallback of [api_generate] builds for a document. *)
Definition fallback_row (d : Document) : row :=
  <["path" := VStr (source d)]> (<["content" := VStr (content d)]> ∅).

Section selection.

(** The scoring service behind [assess_files]. *)
Variable assess_files : list Document → list FileAssessment.

Definition build_selected (docs : list Document) (relevance : Z)
    : list row * list FileAssessment :=
  let assessments := assess_files docs in
  let selected := foldl (select_step relevance) [] (zip assessments docs) in
  (selected, assessments).

(** [api_generate] from the collected documents to the list handed to
    [generate_readme_from]; [None] is the 400 answer for no documents. *)
Definition api_generate_selected (docs : list Document) (relevance : Z)
    : option (list row) :=
  match docs with
  | [] => None
  | _ =>
      let '(selected, assessments) := build_selected docs relevance in
      match selected with
      | [] => Some (fallback_row <$> docs)
      | _ => Some selected
      end
  end.

End selection.

(** The test of the loop body. *)
Definition qualifies (relevance : Z) (pair : FileAssessment * Document) : Prop :=
  include pair.1 = true ∧ (relevance ≤ score pair.1)%Z.

#[global] Instance qualifies_dec relevance pair : Decision (qualifies relevance pair).
Proof. unfold qualifies. apply _. Defined.

(** Two documents, and a scoring service that finds neither worth
    including. *)
Definition docs_two : list Document :=
  [ {| source := lit "app.py"; content := lit "print(1)" |};
    {| source := lit ".env"; content := lit "A=<YOUR_VALUE>" |} ].

Definition assess_low (ds : list Document) : list FileAssessment :=
  (λ d, {| path := source d; score := 2; include := false;
           reason := lit "minor"; summary := lit "none" |}) <$> ds.

(** A scoring service that rates every document 4 and worth including. *)
Definition assess_high (ds : list Document) : list FileAssessment :=
  (λ d, {| path := source d; score := 4; include := true;
           reason := lit "core"; summary := lit "entry point" |}) <$> ds.

(** ** Encoding: [str.encode("utf-8")] *)

(** The octet with value [n], for [n] below 256. *)
Definition octet (n : N) : Byte.byte := default Byte.x00 (Byte.of_N n).

(** The octets of one code point.  A surrogate cannot be encoded
    ([UnicodeEncodeError]), and a [str] holds no code point above
    U+10FFFF. *)
Definition encode_point (c : N) : option (list Byte.byte) :=
  if c <? 0x80 then Some [octet c]
  else if c <? 0x800 then
    Some [octet (0xC0 + c / 64); octet (0x80 + c mod 64)]
  else if c <? 0x10000 then
    if (0xD800 <=? c) && (c <=? 0xDFFF) then None
    else Some [octet (0xE0 + c / 4096); octet (0x80 + (c / 64) mod 64);
               octet (0x80 + c mod 64)]
  else if c <? 0x110000 then
    Some [octet (0xF0 + c / 262144); octet (0x80 + (c / 4096) mod 64);
          octet (0x80 + (c / 64) mod 64); octet (0x80 + c mod 64)]
  else None.

(** [s.encode("utf-8")]; [None] when it raises. *)
Fixpoint encode_utf8 (s : str) : option (list Byte.byte) :=
  match s with
  | [] => Some []
  | c :: s' =>
      match encode_point c, encode_utf8 s' with
      | Some a, Some b => Some (a ++ b)
      | _, _ => None
      end
  end.

(** ** assessor.py: [_clip] and the requests of [assess_files] *)

Definition CLIP_LIMIT : nat := 4000.

(** [_clip(s, limit)]; the limit is an [int], and a negative one always
    cuts: [s[:limit]] then drops characters from the end. *)
Definition _clip (s : str) (limit : Z) : str :=
  if bool_decide (Z.of_nat (length s) ≤ limit)%Z then s
  else slice_to limit s ++ TRUNCATED.

Section assessor.

(** [str.lower] in full, which the embedding leaves open. *)
Variable str_lower : list N → list N.

(** The scoring service: [chain.batch(inputs, ...)]. *)
Variable chain_batch : list row → list FileAssessment.

(** One element of [inputs]; [None] when [encode] raises. *)
Definition assess_input (f : Document) : option row :=
  match encode_utf8 (content f) with
  | Some bs =>
      Some (<["path" := VStr (source f)]>
              (<["ext" := VStr (str_lower (suffix (rel_name (source f))))]>
                 (<["size" := VInt (Z.of_nat (length bs))]>
                    (<["sample" := VStr (_clip (content f) (Z.of_nat CLIP_LIMIT))]> ∅))))
  | None => None
  end.

(** The list [inputs] of [assess_files]. *)
Fixpoint assess_inputs (files : list Document) : option (list row) :=
  match files with
  | [] => Some []
  | f :: rest =>
      match assess_input f, assess_inputs rest with
      | Some r, Some rs => Some (r :: rs)
      | _, _ => None
      end
  end.

Definition assess_files (files : list Document)
    : option (list FileAssessment) :=
  chain_batch <$> assess_inputs files.

End assessor.

(** ** readme_generator.py: [_format_one] and [_format_docs] *)

(** A value as an f-string shows it. *)
Definition format_value (v : value) : list N :=
  match v with
  | VStr s => s
  | VInt z => lit (NilZero.string_of_int (Z.to_int z))
  | VBool b => lit (if b then "True" else "False")
  end.

Definition UNKNOWN_PATH : list N := Eval cbv in lit "UNKNOWN_PATH".

(** The text of one block, from what stands for [path] and [content]. *)
Definition block (shown_path shown_content : list N) : list N :=
  lit "---" ++ [LF] ++ lit "Source: " ++ shown_path ++ [LF; LF]
  ++ lit "Content:" ++ [LF] ++ shown_content ++ [LF].

Definition _format_one (d : row) : list N :=
  let path := or_else (d !! "path")
                (or_else (d !! "source") (VStr UNKNOWN_PATH)) in
  let content := or_else (d !! "content")
                   (or_else (d !! "summary") (VStr [])) in
  block (format_value path) (format_value content).

(** [sep.join(xs)] for a separator of any length. *)
Fixpoint join_str (sep : list N) (xs : list (list N)) : list N :=
  match xs with
  | [] => []
  | [x] => x
  | x :: xs' => x ++ sep ++ join_str sep xs'
  end.

Definition _format_docs (selected : list row) : list N :=
  join_str [LF; LF] (_format_one <$> selected).

(** The path a block shows for an assessment and its document. *)
Definition shown_path (a_path d_source : list N) : list N :=
  match a_path, d_source with
  | _ :: _, _ => a_path
  | [], _ :: _ => d_source
  | [], [] => UNKNOWN_PATH
  end.

(** A text in which every line terminator is LF. *)
Definition is_linebreak_only_LF (s : list N) : Prop :=
  Forall (λ c, is_linebreak c = true → c = LF) s.

(** The line the truncation marker ends in. *)
Definition MARKER_LINE : list N := Eval cbv in lit "# ...truncated...".

(** Two lines that differ at most in the value after the first [=] of a
    line with a key that is not blank and is no comment. *)
Definition same_public (l1 l2 : list N) : Prop :=
  l1 = l2 ∨
  ∃ key v1 v2,
    l1 = key ++ EQ :: v1 ∧ l2 = key ++ EQ :: v2 ∧
    (EQ ∉ key) ∧ strip key ≠ [] ∧ startswith (lstrip key) [HASH] = false.

(** A text with characters of one, two, three and four octets: [A], U+00E9,
    U+20AC and U+1F600. *)
Definition text_mixed : list N := [0x41; 0xE9; 0x20AC; 0x1F600].

#[global] Instance Document_eq_dec : EqDecision Document.
Proof. solve_decision. Defined.

(** ** The result of [collect] in closed form *)

(** The documents up to and including the first at which the running
    total reaches [MAX_TOTAL_BYTES]; all of them when none does. *)
Fixpoint until_budget (total : Z) (ds : list Document) : list Document :=
  match ds with
  | [] => []
  | d :: rest =>
      let total' := (total + Z.of_nat (length (content d)))%Z in
      if (MAX_TOTAL_BYTES <=? total')%Z then [d]
      else d :: until_budget total' rest
  end.

(** The document that the visit of file [v.2] in directory [v.1] adds. *)
Definition doc_at (LOCK_BASENAMES : gset (list N)) (fs : filesys)
    (v : relpath * list N) : Document :=
  {| source := rel_of (v.1 ++ [v.2]);
     content := read_with_rules LOCK_BASENAMES fs (v.1 ++ [v.2]) |}.

(** A tree as a directory scan reports it: no directory lists the name of
    a subdirectory twice. *)
#[local] Unset Elimination Schemes.
Inductive distinct_dirs : listing → Prop :=
  | distinct_Listing ds fns :
      NoDup ds.*1 →
      Forall (λ x, ∀ t, x.2 = Some t → distinct_dirs t) ds →
      distinct_dirs (Listing ds fns).
#[local] Set Elimination Schemes.

(** Two visits of one directory come in ascending order of the names. *)
Definition dir_ascending (v w : relpath * list N) : Prop :=
  v.1 = w.1 → str_le v.2 w.2.

(** In a sequence of visits, the files of each directory are in ascending
    order of their names. *)
Definition ascending_in_dirs (vs : list (relpath * list N)) : Prop :=
  ∀ i j v w, (i < j)%nat → vs !! i = Some v → vs !! j = Some w →
             dir_ascending v w.

(** ** [collect] with the exceptions of [Path.is_file] *)

(** [Path.is_file] answers [False] when [stat] fails for a missing path,
    and up to Python 3.12 lets every other [OSError] pass, among them
    [PermissionError].  The loop calls it outside any [try], so such an
    error ends [collect].  Below, [raises p] tells that [p.is_file()]
    raises, and [None] stands for the exception leaving the function. *)
Section collector_raising.

Variables INCLUDE_EXTS KEY_FILENAMES LOCK_BASENAMES SKIP_DIRS : gset (list N).
Variable fs : filesys.
Variable raises : relpath → bool.
Variable include_readme : bool.

Definition visit_file_r (dp : relpath) (fn : str) (st : cstate)
    : option outcome :=
  if raises (dp ++ [fn]) then None
  else Some (visit_file INCLUDE_EXTS KEY_FILENAMES LOCK_BASENAMES fs
               include_readme dp fn st).

Fixpoint files_loop_r (dp : relpath) (fns : list str) (st : cstate)
    : option outcome :=
  match fns with
  | [] => Some (Running st)
  | fn :: rest =>
      match visit_file_r dp fn st with
      | Some (Running st') => files_loop_r dp rest st'
      | Some (Returned ds) => Some (Returned ds)
      | None => None
      end
  end.

Definition walk_subdirs_r
    (walk : relpath → listing → cstate → option outcome) (dp : relpath) :=
  fix subdirs (ds : list (list N * option listing)) (st : cstate)
    : option outcome :=
    match ds with
    | [] => Some (Running st)
    | (d, sub) :: rest =>
        if bool_decide (d ∈ SKIP_DIRS) then subdirs rest st
        else
          match sub with
          | None => subdirs rest st
          | Some t' =>
              match walk (dp ++ [d]) t' st with
              | Some (Running st') => subdirs rest st'
              | Some (Returned r) => Some (Returned r)
              | None => None
              end
          end
    end.

Fixpoint walk_r (dp : relpath) (t : listing) (st : cstate) : option outcome :=
  match t with
  | Listing dirnames filenames =>
      match files_loop_r dp (sorted filenames) st with
      | Some (Running st1) => walk_subdirs_r walk_r dp dirnames st1
      | Some (Returned ds) => Some (Returned ds)
      | None => None
      end
  end.

(** [collect(root, include_readme)["docs"]], or [None] when [is_file]
    raised. *)
Definition collect_r (root : listing) : option (list Document) :=
  match walk_r [] root init_state with
  | Some (Running st) => Some (docs st)
  | Some (Returned ds) => Some ds
  | None => None
  end.

(** The loop body run over a sequence of visits. *)
Fixpoint run_r (vs : list (relpath * list N)) (st : cstate)
    : option outcome :=
  match vs with
  | [] => Some (Running st)
  | (dp, fn) :: rest =>
      match visit_file_r dp fn st with
      | Some (Running st') => run_r rest st'
      | Some (Returned ds) => Some (Returned ds)
      | None => None
      end
  end.

End collector_raising.

(** ** The decoder and the encoder *)



(** A tree with a directory [locked] in which [stat] is denied: [is_file]
    raises for its file [b.py]. *)
Definition raises_in_locked (p : relpath) : bool :=
  bool_decide (p = [lit "locked"; lit "b.py"]).

Definition tree_locked : listing :=
  Listing [(lit "locked", Some (Listing [] [lit "b.py"]))] [lit "a.py"].

(** * Properties *)

(** ** Text primitives *)

Lemma foldl_snoc_map {A B} (f : A → B) (ls : list A) (acc : list B) :
  foldl (λ out x, out ++ [f x]) acc ls = acc ++ (f <$> ls).
Proof.
  revert acc. induction ls as [|x ls IH]; intros acc; simpl.
  - by rewrite app_nil_r.
  - rewrite IH. by rewrite <- app_assoc.
Qed.

Lemma sanitize_env_map text :
  sanitize_env text = join LF (sanitize_line <$> splitlines text).
Proof. unfold sanitize_env. by rewrite foldl_snoc_map. Qed.

Lemma splitlines_one_line_aux n :
  ∀ s : str, (length s ≤ n)%nat → Forall one_line (splitlines s).
Proof.
  induction n as [|n IH]; intros [|c s] Hn; simpl in *; try lia.
  - constructor.
  - constructor.
  - destruct (is_linebreak c) eqn:Hc.
    + constructor; [constructor|].
      destruct s as [|d s]; [constructor|].
      destruct ((c =? CR) && (d =? LF)); apply IH; simpl in *; lia.
    + assert (Hs : Forall one_line (splitlines s)) by (apply IH; lia).
      destruct (splitlines s) as [|l ls].
      * constructor; [|constructor]. by constructor.
      * inversion Hs; subst. constructor; [|done]. by constructor.
Qed.

Lemma splitlines_one_line (s : str) : Forall one_line (splitlines s).
Proof. by apply (splitlines_one_line_aux (length s)). Qed.

Lemma splitlines_line_LF (l rest : str) :
  one_line l → splitlines (l ++ LF :: rest) = l :: splitlines rest.
Proof.
  induction 1 as [|c l Hc Hl IH]; simpl.
  - by destruct rest.
  - by rewrite Hc, IH.
Qed.

Lemma splitlines_single (l : str) :
  one_line l → l ≠ [] → splitlines l = [l].
Proof.
  induction 1 as [|c l Hc Hl IH]; intros Hne; [done|].
  simpl. rewrite Hc. destruct l as [|c' l']; [done|].
  by rewrite IH.
Qed.

(** Joining lines with LF and splitting again gives the lines back, except
    that an empty last line is lost. *)
Lemma splitlines_join (ls : list str) :
  Forall one_line ls →
  splitlines (join LF ls) =
    match last ls with Some [] => removelast ls | _ => ls end.
Proof.
  induction 1 as [|l ls Hl Hls IH]; [done|].
  destruct ls as [|l2 ls].
  - simpl. destruct l as [|c l]; [done|]. by apply splitlines_single.
  - change (join LF (l :: l2 :: ls)) with (l ++ LF :: join LF (l2 :: ls)).
    rewrite splitlines_line_LF, IH by done.
    change (last (l :: l2 :: ls)) with (last (l2 :: ls)).
    change (removelast (l :: l2 :: ls)) with (l :: removelast (l2 :: ls)).
    by destruct (last (l2 :: ls)) as [[|??]|].
Qed.

Lemma lstrip_Forall (P : N → Prop) (s : str) : Forall P s → Forall P (lstrip s).
Proof.
  induction 1 as [|c s Hc Hs IH]; simpl; [constructor|].
  destruct (is_space c); [done|by constructor].
Qed.

Lemma rstrip_Forall (P : N → Prop) (s : str) : Forall P s → Forall P (rstrip s).
Proof.
  induction 1 as [|c s Hc Hs IH]; simpl; [constructor|].
  destruct (rstrip s) as [|r rs].
  - destruct (is_space c); repeat constructor; done.
  - by constructor.
Qed.

Lemma strip_Forall (P : N → Prop) (s : str) : Forall P s → Forall P (strip s).
Proof. intros. by apply rstrip_Forall, lstrip_Forall. Qed.

Lemma rstrip_cons_nonspace c (s : str) :
  is_space c = false → rstrip (c :: s) = c :: rstrip s.
Proof. intros Hc. simpl. rewrite Hc. by destruct (rstrip s). Qed.

Lemma rstrip_idem (s : str) : rstrip (rstrip s) = rstrip s.
Proof.
  induction s as [|c s IH]; [done|]. simpl.
  destruct (rstrip s) as [|r rs] eqn:Hr.
  - destruct (is_space c) eqn:Hc; [done|]. simpl. by rewrite Hc.
  - change (rstrip (c :: r :: rs)) with
      (match rstrip (r :: rs) with
       | [] => if is_space c then [] else [c]
       | x => c :: x end).
    by rewrite IH.
Qed.

Lemma lstrip_head (s : str) :
  match lstrip s with [] => True | c :: _ => is_space c = false end.
Proof.
  induction s as [|c s IH]; [done|]. simpl.
  by destruct (is_space c) eqn:Hc.
Qed.

Lemma lstrip_app (s t : str) : lstrip s ≠ [] → lstrip (s ++ t) = lstrip s ++ t.
Proof.
  induction s as [|c s IH]; [done|]. simpl.
  destruct (is_space c); [apply IH|done].
Qed.

(** A non-empty stripped text begins with a character that is not a space,
    the first one [lstrip] keeps, and stripping it again changes nothing. *)
Lemma strip_cons (s : str) c (r : str) :
  strip s = c :: r →
  is_space c = false ∧ (∃ r', lstrip s = c :: r') ∧ strip (c :: r) = c :: r.
Proof.
  unfold strip. intros Hk.
  pose proof (lstrip_head s) as Hh.
  destruct (lstrip s) as [|c' r'] eqn:Hl; [done|].
  rewrite rstrip_cons_nonspace in Hk by done. injection Hk as -> Hr.
  split; [done|]. split; [by eexists|].
  simpl. rewrite Hh. rewrite rstrip_cons_nonspace by done.
  by rewrite <- Hr, rstrip_idem.
Qed.

Lemma before_first_Forall c (s : str) :
  Forall (λ d, (d =? c) = false) (before_first c s).
Proof.
  induction s as [|d s IH]; simpl; [constructor|].
  destruct (d =? c) eqn:Hd; by constructor.
Qed.

Lemma before_first_keeps (P : N → Prop) c (s : str) :
  Forall P s → Forall P (before_first c s).
Proof.
  induction 1 as [|d s Hd Hs IH]; simpl; [constructor|].
  destruct (d =? c); by constructor.
Qed.

Lemma before_first_split c (s : str) :
  contains c s = true → ∃ post, s = before_first c s ++ c :: post.
Proof.
  unfold contains. induction s as [|d s IH]; simpl; [done|].
  intros H. destruct (d =? c) eqn:Hd.
  - apply N.eqb_eq in Hd as ->. by exists s.
  - rewrite N.eqb_sym, Hd in H. destruct (IH H) as [post Hp].
    exists post. simpl. by rewrite <- Hp.
Qed.

Lemma before_first_app c (k post : str) :
  Forall (λ d, (d =? c) = false) k → before_first c (k ++ c :: post) = k.
Proof.
  induction 1 as [|d k Hd Hk IH]; simpl.
  - by rewrite N.eqb_refl.
  - by rewrite Hd, IH.
Qed.

Lemma contains_app_r c (k post : str) : contains c (k ++ c :: post) = true.
Proof.
  unfold contains. rewrite existsb_app. simpl.
  rewrite N.eqb_refl. by rewrite orb_true_r.
Qed.

Lemma one_line_app (a b : str) : one_line a → one_line b → one_line (a ++ b).
Proof. unfold one_line. intros. by apply Forall_app. Qed.

Lemma one_line_PLACEHOLDER : one_line PLACEHOLDER.
Proof. unfold one_line, PLACEHOLDER. repeat constructor. Qed.

(** ** [sanitize_line] *)

Lemma sanitize_line_one_line (l : str) : one_line l → one_line (sanitize_line l).
Proof.
  intros Hl. unfold sanitize_line.
  destruct (contains EQ l && negb (startswith (lstrip l) [HASH])); [|done].
  destruct (strip (before_first EQ l)) as [|c r] eqn:Hk; [done|].
  apply one_line_app; [|apply one_line_PLACEHOLDER].
  rewrite <- Hk. by apply strip_Forall, before_first_keeps.
Qed.

Lemma sanitize_line_nil (l : str) : sanitize_line l = [] ↔ l = [].
Proof.
  split; [|by intros ->].
  unfold sanitize_line.
  destruct (contains EQ l && negb (startswith (lstrip l) [HASH])); [|done].
  by destruct (strip (before_first EQ l)).
Qed.

(** A sanitized line is left as it is by a second pass. *)
Lemma sanitize_line_idem (l : str) :
  sanitize_line (sanitize_line l) = sanitize_line l.
Proof.
  unfold sanitize_line at 2 3.
  destruct (contains EQ l && negb (startswith (lstrip l) [HASH])) eqn:Hcond.
  2: { unfold sanitize_line. by rewrite Hcond. }
  destruct (strip (before_first EQ l)) as [|c r] eqn:Hk.
  { unfold sanitize_line. by rewrite Hcond, Hk. }
  apply andb_true_iff in Hcond as [Hin Hhash].
  destruct (before_first_split EQ l Hin) as [post Hp].
  destruct (strip_cons _ _ _ Hk) as (Hc & [r' Hl] & Hidem).
  assert (Hnoeq : Forall (λ d, (d =? EQ) = false) (c :: r)).
  { rewrite <- Hk. apply strip_Forall, before_first_Forall. }
  assert (Hne : (c =? HASH) = false).
  { rewrite Hp, lstrip_app, Hl in Hhash by (by rewrite Hl).
    simpl in Hhash. by destruct (c =? HASH). }
  unfold sanitize_line, PLACEHOLDER.
  rewrite contains_app_r. rewrite before_first_app by done.
  rewrite Hidem.
  replace (lstrip ((c :: r) ++ _)) with ((c :: r) ++ EQ :: lit "<YOUR_VALUE>").
  2: { simpl. by rewrite Hc. }
  simpl. by rewrite Hne.
Qed.

Lemma contains_true c (s : str) : contains c s = true ↔ c ∈ s.
Proof.
  unfold contains. rewrite existsb_exists. split.
  - intros (d & Hd & Heq). apply N.eqb_eq in Heq as ->. by apply list_elem_of_In.
  - intros Hc. exists c. split; [by apply list_elem_of_In|apply N.eqb_refl].
Qed.

Lemma not_in_Forall_eqb c (k : str) : c ∉ k → Forall (λ d, (d =? c) = false) k.
Proof.
  intros Hc. apply Forall_forall. intros d Hd.
  apply N.eqb_neq. by intros ->.
Qed.

Lemma join_snoc_empty (ls : list str) :
  ls ≠ [] → join LF (ls ++ [[]]) = join LF ls ++ [LF].
Proof.
  induction ls as [|x ls IH]; [done|]. intros _.
  destruct ls as [|y ls]; [done|].
  change (join LF ((x :: y :: ls) ++ [[]]))
    with (x ++ LF :: join LF ((y :: ls) ++ [[]])).
  rewrite IH by done.
  change (join LF (x :: y :: ls)) with (x ++ LF :: join LF (y :: ls)).
  by rewrite <- app_assoc.
Qed.

Lemma sanitize_lines_idem (ls : list str) :
  sanitize_line <$> (sanitize_line <$> ls) = sanitize_line <$> ls.
Proof.
  rewrite <- list_fmap_compose. apply list_fmap_ext.
  intros _ l _. simpl. apply sanitize_line_idem.
Qed.

Lemma sanitize_lines_one_line (ls : list str) :
  Forall one_line ls → Forall one_line (sanitize_line <$> ls).
Proof.
  intros H. apply Forall_fmap. eapply Forall_impl; [exact H|].
  intros l Hl. by apply sanitize_line_one_line.
Qed.

(** What a second pass does: it sees the sanitized lines again, less an
    empty last one. *)
Lemma sanitize_env_twice (s : str) :
  sanitize_env (sanitize_env s) =
    join LF (match last (splitlines s) with
             | Some [] => removelast (sanitize_line <$> splitlines s)
             | _ => sanitize_line <$> splitlines s
             end).
Proof.
  rewrite (sanitize_env_map s), sanitize_env_map.
  rewrite splitlines_join
    by apply sanitize_lines_one_line, splitlines_one_line.
  rewrite fmap_last.
  destruct (last (splitlines s)) as [l|] eqn:Hlast; simpl.
  - destruct (sanitize_line l) as [|c r] eqn:Hl.
    + apply sanitize_line_nil in Hl as ->.
      destruct (last_Some (splitlines s) []) as [[ls0 Hs] _]; [done|].
      rewrite Hs, fmap_app. simpl. rewrite removelast_last.
      by rewrite sanitize_lines_idem.
    + destruct l as [|c' r']; [done|]. by rewrite sanitize_lines_idem.
  - by rewrite sanitize_lines_idem.
Qed.

(** ** C9: idempotence of [sanitize_env] *)

(** C9 (as amended).  Every sanitized line is a fixed point of the per-line
    rule, so a value already replaced by the placeholder stays as it is.
    For whole texts, [sanitize_env (sanitize_env s) = sanitize_env s] holds
    exactly when the last line of [s] is not empty or [s] is one empty
    line: each pass drops one final empty line. *)
Theorem sanitize_env_idempotent_iff :
  (∀ line : str, sanitize_line (sanitize_line line) = sanitize_line line) ∧
  (∀ s : str,
     sanitize_env (sanitize_env s) = sanitize_env s ↔
     (last (splitlines s) ≠ Some [] ∨ splitlines s = [[]])).
Proof.
  split; [apply sanitize_line_idem|]. intros s.
  rewrite sanitize_env_twice, (sanitize_env_map s).
  destruct (last (splitlines s)) as [[|c r]|] eqn:Hlast.
  - destruct (last_Some (splitlines s) []) as [[ls0 Hs] _]; [done|].
    rewrite Hs, fmap_app. simpl. rewrite removelast_last.
    destruct ls0 as [|x ls0].
    + split; [by right|done].
    + rewrite join_snoc_empty by done. split.
      * intros Heq. apply (f_equal length) in Heq.
        rewrite length_app in Heq. simpl in Heq. lia.
      * intros [?|Habs]; [done|]. by destruct ls0.
  - split; [|done]. intros _. by left.
  - split; [|done]. intros _. by left.
Qed.

(** A text whose last line is followed by an empty line is not a fixed
    point: ["a\n\n"] becomes ["a\n"], then ["a"]. *)
Lemma sanitize_env_not_idempotent :
  sanitize_env (lit "a" ++ [LF; LF]) = lit "a" ++ [LF] ∧
  sanitize_env (sanitize_env (lit "a" ++ [LF; LF])) = lit "a" ∧
  sanitize_env (sanitize_env (lit "a" ++ [LF; LF]))
    ≠ sanitize_env (lit "a" ++ [LF; LF]).
Proof. vm_compute. by repeat split. Qed.

Lemma sanitize_env_idempotent_witness :
  sanitize_env (sanitize_env (lit "API_KEY=secret123"))
    = sanitize_env (lit "API_KEY=secret123").
Proof.
  apply (proj2 sanitize_env_idempotent_iff (lit "API_KEY=secret123")).
  left. vm_compute. discriminate.
Defined.

(** ** C5: what [sanitize_env] does to each line *)

(** C5 (as amended).  The output is the sanitized lines joined by LF.  A
    line [key=value] whose first [=] follows [key], that is no comment and
    whose key is not blank becomes the key stripped of surrounding white
    space followed by the placeholder; a line with a blank key, a line
    without [=] and a comment line stay as they are. *)
Theorem sanitize_env_per_line (text : str) :
  sanitize_env text = join LF (sanitize_line <$> splitlines text) ∧
  (∀ key value : str,
     EQ ∉ key → startswith (lstrip (key ++ EQ :: value)) [HASH] = false →
     strip key ≠ [] →
     sanitize_line (key ++ EQ :: value) = strip key ++ PLACEHOLDER) ∧
  (∀ key value : str,
     EQ ∉ key → strip key = [] →
     sanitize_line (key ++ EQ :: value) = key ++ EQ :: value) ∧
  (∀ line : str, EQ ∉ line → sanitize_line line = line) ∧
  (∀ line : str,
     startswith (lstrip line) [HASH] = true → sanitize_line line = line).
Proof.
  split; [apply sanitize_env_map|]. repeat split.
  - intros key value Hkey Hhash Hk. unfold sanitize_line.
    rewrite contains_app_r, Hhash. simpl.
    rewrite before_first_app by by apply not_in_Forall_eqb.
    by destruct (strip key).
  - intros key value Hkey Hk. unfold sanitize_line.
    rewrite before_first_app by by apply not_in_Forall_eqb.
    rewrite Hk. by destruct (_ && _).
  - intros line Hline. unfold sanitize_line.
    destruct (contains EQ line) eqn:Hc; [|done].
    by apply contains_true in Hc.
  - intros line Hhash. unfold sanitize_line. rewrite Hhash.
    by rewrite andb_false_r.
Qed.

Lemma sanitize_env_per_line_witness :
  sanitize_line (lit " A " ++ EQ :: lit " b") = lit "A" ++ PLACEHOLDER.
Proof.
  apply (proj1 (proj2 (sanitize_env_per_line [])) (lit " A ") (lit " b")).
  - compute_done.
  - reflexivity.
  - vm_compute. discriminate.
Defined.

(** The key is not kept verbatim: [" A=b"] becomes ["A=<YOUR_VALUE>"]; and
    the value after an empty key is not replaced. *)
Lemma sanitize_env_key_not_verbatim :
  sanitize_env (lit " A=b") = lit "A=<YOUR_VALUE>" ∧
  sanitize_env (lit " A=b") ≠ lit " A=<YOUR_VALUE>" ∧
  sanitize_env (lit "=secret123") = lit "=secret123".
Proof. vm_compute. by repeat split. Qed.

(** ** C10: a line with an empty key *)

(** C10.  A line whose text before its first [=] is empty or only white
    space is appended unchanged, and a text that consists of that one line
    is returned unchanged: the value is not replaced. *)
Theorem sanitize_env_blank_key (key value : str) :
  EQ ∉ key → strip key = [] → one_line (key ++ EQ :: value) →
  sanitize_line (key ++ EQ :: value) = key ++ EQ :: value ∧
  sanitize_env (key ++ EQ :: value) = key ++ EQ :: value.
Proof.
  intros Hkey Hk Hline.
  assert (Hl : sanitize_line (key ++ EQ :: value) = key ++ EQ :: value).
  { unfold sanitize_line.
    rewrite before_first_app by by apply not_in_Forall_eqb.
    rewrite Hk. by destruct (_ && _). }
  split; [done|].
  rewrite sanitize_env_map, splitlines_single; [|done|by destruct key].
  simpl. by rewrite Hl.
Qed.

Lemma sanitize_env_blank_key_witness :
  sanitize_env (lit "=secret123") = lit "=secret123".
Proof.
  apply (sanitize_env_blank_key [] (lit "secret123")).
  - set_solver.
  - reflexivity.
  - unfold one_line. vm_compute. repeat constructor.
Defined.

(** ** C4: the line caps *)

Lemma slice_to_nat {A} (n : nat) (l : list A) :
  slice_to (Z.of_nat n) l = take n l.
Proof.
  unfold slice_to. rewrite bool_decide_eq_true_2 by lia. by rewrite Nat2Z.id.
Qed.

Lemma head_lines_over (text : str) (n : nat) :
  (n < length (splitlines text))%nat →
  head_lines text (Z.of_nat n)
  = join LF (take n (splitlines text)) ++ TRUNCATED.
Proof.
  intros H. unfold head_lines.
  rewrite bool_decide_eq_false_2 by lia. by rewrite slice_to_nat.
Qed.

Lemma head_lines_within (text : str) (n : nat) :
  (length (splitlines text) ≤ n)%nat → head_lines text (Z.of_nat n) = text.
Proof.
  intros H. unfold head_lines. rewrite bool_decide_eq_true_2; [done|lia].
Qed.

(** C4 (as amended).  For a file under a line cap (200 lines when it is
    lock-like, otherwise 800 lines when its suffix is [.json], [.yaml] or
    [.yml]) the cap applies to the text after the [.env] step, which is the
    decoded text unless the name starts with [.env].  With more lines than
    the cap the content is the first [cap] lines joined by LF followed by
    the marker, so it ends in the marker; with at most [cap] lines the
    content is that text, nothing appended. *)
Theorem read_with_rules_line_cap
    (LOCK_BASENAMES : gset (list N)) (fs : filesys) (p : relpath) :
  is_lock_like LOCK_BASENAMES p = true
  ∨ str_in (suffix (path_name p)) CONFIG_EXTS = true →
  let cap := if is_lock_like LOCK_BASENAMES p
             then LOCK_MAX_LINES else CONFIG_MAX_LINES in
  let text := capped_text fs p in
  let stored := read_with_rules LOCK_BASENAMES fs p in
  (startswith (path_name p) ENV_PREFIX = false →
   text = read_bytes_as_text fs p MAX_FILE_BYTES) ∧
  ((cap < length (splitlines text))%nat →
   stored = join LF (take cap (splitlines text)) ++ TRUNCATED ∧
   TRUNCATED `suffix_of` stored) ∧
  ((length (splitlines text) ≤ cap)%nat → stored = text).
Proof.
  intros Hcap cap text stored.
  assert (Hs : stored = head_lines text (Z.of_nat cap)).
  { unfold stored, read_with_rules, text, capped_text, cap.
    destruct (is_lock_like LOCK_BASENAMES p) eqn:Hl; [done|].
    destruct Hcap as [Hcap | Hcap]; [done|]. by rewrite Hcap. }
  split; [|split].
  - intros Henv. unfold text, capped_text. by rewrite Henv.
  - intros Hlen. rewrite Hs, head_lines_over by done.
    split; [done|]. by eexists.
  - intros Hlen. by rewrite Hs, head_lines_within.
Qed.

Lemma read_with_rules_line_cap_witness :
  read_with_rules EX_LOCK_BASENAMES fs_one_line [lit "package-lock.json"]
  = capped_text fs_one_line [lit "package-lock.json"].
Proof.
  apply (read_with_rules_line_cap EX_LOCK_BASENAMES fs_one_line
           [lit "package-lock.json"]).
  - left. vm_compute. reflexivity.
  - vm_compute. lia.
Defined.

(** A file named [.env.json] with the one line [A=b] is under the 800-line
    cap and within it, yet its content is not the decoded text.  A file
    named [.env.lock] whose decoded text has 201 lines, the last one empty,
    exceeds the 200-line cap, yet its content has no marker: the [.env]
    step has dropped the empty last line before the lines are counted. *)
Lemma read_with_rules_env_json_changed :
  let p := [lit ".env.json"] in
  let q := [lit ".env.lock"] in
  (str_in (suffix (path_name p)) CONFIG_EXTS = true ∧
   read_bytes_as_text fs_one_line p MAX_FILE_BYTES = lit "A=b" ∧
   (length (splitlines (read_bytes_as_text fs_one_line p MAX_FILE_BYTES))
    ≤ CONFIG_MAX_LINES)%nat ∧
   read_with_rules EX_LOCK_BASENAMES fs_one_line p = lit "A=<YOUR_VALUE>" ∧
   read_with_rules EX_LOCK_BASENAMES fs_one_line p
   ≠ read_bytes_as_text fs_one_line p MAX_FILE_BYTES) ∧
  (is_lock_like EX_LOCK_BASENAMES q = true ∧
   length (splitlines (read_bytes_as_text fs_201_lines q MAX_FILE_BYTES))
   = 201%nat ∧
   (LOCK_MAX_LINES
    < length (splitlines (read_bytes_as_text fs_201_lines q MAX_FILE_BYTES)))%nat ∧
   ¬ (TRUNCATED `suffix_of` read_with_rules EX_LOCK_BASENAMES fs_201_lines q)).
Proof.
  assert (Hr : read_bytes_as_text fs_one_line [lit ".env.json"] MAX_FILE_BYTES
               = lit "A=b") by (vm_compute; reflexivity).
  assert (Hw : read_with_rules EX_LOCK_BASENAMES fs_one_line [lit ".env.json"]
               = lit "A=<YOUR_VALUE>") by (vm_compute; reflexivity).
  assert (Hn : length (splitlines (read_bytes_as_text fs_201_lines
                                     [lit ".env.lock"] MAX_FILE_BYTES))
               = 201%nat) by (vm_compute; reflexivity).
  cbv zeta. rewrite Hr, Hw, Hn. clear Hr Hw Hn.
  split; [|split; [|split; [|split]]].
  - repeat split; try done. vm_compute. lia.
  - vm_compute. reflexivity.
  - reflexivity.
  - unfold LOCK_MAX_LINES. lia.
  - apply (bool_decide_eq_false_1 _). vm_compute. reflexivity.
Qed.

(** ** Decoding *)

Lemma start_byte_length b : (length (start_byte b).1 ≤ 1)%nat.
Proof. unfold start_byte. repeat case_match; simpl; lia. Qed.

Lemma decode_from_length (bs : list Byte.byte) :
  ∀ st, (length (decode_from st bs) ≤ length bs)%nat.
Proof.
  induction bs as [|b bs IH]; intros st; simpl; [lia|].
  assert (Hrestart :
    (length (let '(out, st') := start_byte (Byte.to_N b) in
             out ++ decode_from st' bs) ≤ S (length bs))%nat).
  { pose proof (start_byte_length (Byte.to_N b)) as Hb.
    destruct (start_byte (Byte.to_N b)) as [out st']. simpl in *.
    rewrite length_app. specialize (IH st'). lia. }
  destruct st as [|[|n] acc lo hi]; try exact Hrestart.
  destruct (_ && _); [|exact Hrestart].
  destruct n; simpl.
  - specialize (IH Start). lia.
  - specialize (IH (Pending (S n) (acc * 64 + (Byte.to_N b - 128)) 128 191)).
    lia.
Qed.

Ltac N_compare_to_Prop :=
  repeat match goal with
         | H : (_ <? _) = true |- _ => apply N.ltb_lt in H
         | H : (_ <? _) = false |- _ => apply N.ltb_ge in H
         | H : (_ =? _) = true |- _ => apply N.eqb_eq in H
         | H : (_ =? _) = false |- _ => apply N.eqb_neq in H
         | H : (_ <=? _) = true |- _ => apply N.leb_le in H
         | H : (_ <=? _) = false |- _ => apply N.leb_gt in H
         end.

Lemma start_byte_ok b :
  Forall is_scalar (start_byte b).1 ∧ dstate_ok (start_byte b).2.
Proof.
  unfold start_byte.
  repeat (case_match; simpl); N_compare_to_Prop; split;
    try (by constructor); try lia.
  constructor; [|constructor]. unfold is_scalar. lia.
Qed.

(** With [errors="ignore"] every code point the decoder emits is a Unicode
    scalar value. *)
Lemma decode_from_scalar (bs : list Byte.byte) :
  ∀ st, dstate_ok st → Forall is_scalar (decode_from st bs).
Proof.
  induction bs as [|b bs IH]; intros st Hst; simpl; [constructor|].
  assert (Hrestart :
    Forall is_scalar (let '(out, st') := start_byte (Byte.to_N b) in
                      out ++ decode_from st' bs)).
  { pose proof (start_byte_ok (Byte.to_N b)) as [Hb1 Hb2].
    destruct (start_byte (Byte.to_N b)) as [out st']. simpl in *.
    apply Forall_app. split; [done|by apply IH]. }
  destruct st as [|[|n] acc lo hi]; try exact Hrestart.
  destruct (_ && _) eqn:Hrange; [|exact Hrestart].
  apply andb_true_iff in Hrange as [Hlo Hhi].
  apply N.leb_le in Hlo, Hhi.
  destruct n as [|[|[|n]]]; simpl in Hst.
  - constructor; [|by apply IH]. unfold is_scalar. lia.
  - apply IH. simpl. lia.
  - apply IH. simpl. lia.
  - done.
Qed.

Lemma decode_utf8_ignore_scalar (bs : list Byte.byte) :
  Forall is_scalar (decode_utf8_ignore bs).
Proof. by apply decode_from_scalar. Qed.

(** An ASCII octet decodes to itself. *)
Lemma decode_from_ascii b (bs : list Byte.byte) :
  Byte.to_N b < 0x80 →
  decode_from Start (b :: bs) = Byte.to_N b :: decode_from Start bs.
Proof.
  intros Hb. simpl. unfold start_byte.
  apply N.ltb_lt in Hb. by rewrite Hb.
Qed.

Lemma decode_repeat_ascii b (n : nat) :
  Byte.to_N b < 0x80 →
  decode_utf8_ignore (repeat b n) = repeat (Byte.to_N b) n.
Proof.
  intros Hb. unfold decode_utf8_ignore.
  induction n as [|n IH]; [done|].
  change (repeat b (S n)) with (b :: repeat b n).
  by rewrite decode_from_ascii, IH.
Qed.

(** ** The order on names *)

Lemma str_leb_total (a b : str) : str_leb a b = true ∨ str_leb b a = true.
Proof.
  revert b. induction a as [|x a IH]; intros [|y b]; simpl; auto.
  destruct (IH b) as [H|H]; rewrite H;
    destruct (N.ltb_spec x y), (N.ltb_spec y x), (N.eqb_spec x y),
             (N.eqb_spec y x); simpl; auto; lia.
Qed.

Lemma str_leb_trans (a b c : str) :
  str_leb a b = true → str_leb b c = true → str_leb a c = true.
Proof.
  revert b c. induction a as [|x a IH]; intros [|y b] [|z c]; simpl; auto;
    try discriminate.
  intros H1 H2.
  apply orb_true_iff in H1 as [H1|H1], H2 as [H2|H2];
    try apply andb_true_iff in H1 as [H1 H1'];
    try apply andb_true_iff in H2 as [H2 H2'];
    N_compare_to_Prop; apply orb_true_iff.
  - left. apply N.ltb_lt. lia.
  - left. apply N.ltb_lt. lia.
  - left. apply N.ltb_lt. lia.
  - right. apply andb_true_iff. split; [apply N.eqb_eq; lia|by eapply IH].
Qed.

Lemma str_leb_antisym (a b : str) :
  str_leb a b = true → str_leb b a = true → a = b.
Proof.
  revert b. induction a as [|x a IH]; intros [|y b]; simpl; auto;
    try discriminate.
  intros H1 H2.
  apply orb_true_iff in H1 as [H1|H1], H2 as [H2|H2];
    try apply andb_true_iff in H1 as [H1 H1'];
    try apply andb_true_iff in H2 as [H2 H2'];
    N_compare_to_Prop; try lia.
  subst. f_equal. by apply IH.
Qed.

#[local] Instance str_le_total : Total str_le.
Proof. intros a b. apply str_leb_total. Qed.

#[local] Instance str_le_trans : Transitive str_le.
Proof. intros a b c. apply str_leb_trans. Qed.

#[local] Instance str_le_antisym : AntiSymm (=) str_le.
Proof. intros a b. apply str_leb_antisym. Qed.

Lemma sorted_Sorted (fns : list str) : Sorted str_le (sorted fns).
Proof. apply Sorted_merge_sort, _. Qed.

Lemma sorted_Permutation (fns : list str) : sorted fns ≡ₚ fns.
Proof. apply merge_sort_Permutation. Qed.

(** The sorted list does not depend on the order the names came in. *)
Lemma sorted_perm (fns fns' : list str) : fns ≡ₚ fns' → sorted fns = sorted fns'.
Proof.
  intros Hp. apply (Sorted_unique str_le); try apply sorted_Sorted.
  by rewrite !sorted_Permutation.
Qed.

(** ** Induction on listings *)

Lemma listing_ind (P : listing → Prop) :
  (∀ ds fns, Forall (λ x, ∀ t, x.2 = Some t → P t) ds → P (Listing ds fns)) →
  ∀ t, P t.
Proof.
  intros H. fix IH 1. intros [ds fns]. apply H.
  revert ds. fix IHds 1. intros [|[d sub] rest].
  - constructor.
  - constructor; [|apply IHds].
    simpl. intros t Ht. destruct sub as [t'|]; [|discriminate].
    injection Ht as <-. apply IH.
Qed.

(** ** The collector *)

Section collector_facts.

Context (INCLUDE_EXTS KEY_FILENAMES LOCK_BASENAMES SKIP_DIRS : gset (list N)).
Context (fs : filesys) (include_readme : bool).

Local Abbreviation visit :=
  (visit_file INCLUDE_EXTS KEY_FILENAMES LOCK_BASENAMES fs include_readme).
Local Abbreviation loop :=
  (files_loop INCLUDE_EXTS KEY_FILENAMES LOCK_BASENAMES fs include_readme).
Local Abbreviation walk' :=
  (walk INCLUDE_EXTS KEY_FILENAMES LOCK_BASENAMES SKIP_DIRS fs
     include_readme).
Local Abbreviation collect' :=
  (collect INCLUDE_EXTS KEY_FILENAMES LOCK_BASENAMES SKIP_DIRS fs
     include_readme).
Local Abbreviation run' :=
  (run INCLUDE_EXTS KEY_FILENAMES LOCK_BASENAMES fs include_readme).
Local Abbreviation order := (visit_order SKIP_DIRS).
Local Abbreviation eligible' :=
  (eligible INCLUDE_EXTS KEY_FILENAMES fs include_readme).
Local Abbreviation cands :=
  (candidates INCLUDE_EXTS KEY_FILENAMES LOCK_BASENAMES fs include_readme).
Local Abbreviation doc_of p :=
  {| source := rel_of p; content := read_with_rules LOCK_BASENAMES fs p |}.

(** The loop body: a visit that is eligible and not yet seen adds its
    document, and returns when the total has reached the budget; any
    other visit leaves the state as it is. *)
Lemma visit_file_spec dp fn st :
  visit dp fn st =
    if eligible' (dp ++ [fn]) && negb (bool_decide (rel_of (dp ++ [fn]) ∈ seen st))
    then let st' := add_doc (doc_of (dp ++ [fn])) st in
         if (MAX_TOTAL_BYTES <=? total st')%Z then Returned (docs st')
         else Running st'
    else Running st.
Proof.
  unfold visit_file, eligible.
  destruct (is_file fs _); simpl; [|done].
  destruct (negb include_readme && _); simpl; [done|].
  destruct (should_include _ _ _); simpl; [|done].
  by destruct (bool_decide (_ ∈ seen st)).
Qed.

Lemma run_app vs1 vs2 st :
  run' (vs1 ++ vs2) st =
    match run' vs1 st with
    | Running st' => run' vs2 st'
    | Returned ds => Returned ds
    end.
Proof.
  revert st. induction vs1 as [|[dp fn] vs1 IH]; intros st; simpl; [done|].
  destruct (visit dp fn st); [apply IH|done].
Qed.

Lemma files_loop_run dp fns st :
  loop dp fns st = run' ((λ fn, (dp, fn)) <$> fns) st.
Proof.
  revert st. induction fns as [|fn fns IH]; intros st; simpl; [done|].
  destruct (visit dp fn st); [apply IH|done].
Qed.

(** The two nested loops are one loop over the visits in order. *)
Lemma walk_run t : ∀ dp st, walk' dp t st = run' (order dp t) st.
Proof.
  induction t as [ds fns IH] using listing_ind. intros dp st. simpl.
  rewrite run_app, files_loop_run.
  destruct (run' _ st) as [st1|]; [|done].
  revert st1. induction IH as [|[d sub] rest Hsub _ IHrest]; intros st1;
    simpl; [done|].
  rewrite run_app.
  destruct (bool_decide (d ∈ SKIP_DIRS)); simpl; [apply IHrest|].
  destruct sub as [t'|]; simpl; [|apply IHrest].
  rewrite (Hsub t' eq_refl).
  destruct (run' _ st1); [apply IHrest|done].
Qed.

Lemma collect_run root :
  collect' root =
    match run' (order [] root) init_state with
    | Running st => docs st
    | Returned ds => ds
    end.
Proof. unfold collect. by rewrite walk_run. Qed.


(** *** The budget *)

Lemma sum_len_app ds1 ds2 : sum_len (ds1 ++ ds2) = (sum_len ds1 + sum_len ds2)%Z.
Proof.
  unfold sum_len. induction ds1 as [|d ds1 IH]; simpl; [done|].
  rewrite IH. lia.
Qed.

Lemma sum_len_nonneg ds : (0 ≤ sum_len ds)%Z.
Proof. unfold sum_len. induction ds as [|d ds IH]; simpl; lia. Qed.

Lemma sum_len_removelast ds : (sum_len (removelast ds) ≤ sum_len ds)%Z.
Proof.
  destruct (decide (ds = [])) as [->|Hne]; [done|].
  destruct (exists_last Hne) as (ds' & d & ->).
  rewrite removelast_last, sum_len_app.
  pose proof (sum_len_nonneg [d]). lia.
Qed.

Lemma within_budget_init : within_budget init_state.
Proof. split; [done|]. unfold MAX_TOTAL_BYTES. simpl. lia. Qed.

Lemma visit_file_budget dp fn st :
  within_budget st →
  match visit dp fn st with
  | Running st' => within_budget st'
  | Returned ds =>
      ∃ ds' d, ds = ds' ++ [d] ∧ (sum_len ds' < MAX_TOTAL_BYTES)%Z
               ∧ (MAX_TOTAL_BYTES ≤ sum_len ds)%Z
  end.
Proof.
  intros [Htot Hlt]. rewrite visit_file_spec.
  destruct (_ && _); [|done]. simpl.
  destruct (Z.leb_spec MAX_TOTAL_BYTES
              (total st + Z.of_nat (length (read_with_rules LOCK_BASENAMES fs
                                              (dp ++ [fn]))))) as [Hge|Hlt'].
  - eexists (docs st), _. split; [done|]. split; [lia|].
    rewrite sum_len_app. unfold sum_len at 2. simpl. lia.
  - split; [|done]. simpl. rewrite sum_len_app. unfold sum_len at 2. simpl. lia.
Qed.

Lemma run_budget vs : ∀ st,
  within_budget st →
  match run' vs st with
  | Running st' => within_budget st'
  | Returned ds =>
      ∃ ds' d, ds = ds' ++ [d] ∧ (sum_len ds' < MAX_TOTAL_BYTES)%Z
               ∧ (MAX_TOTAL_BYTES ≤ sum_len ds)%Z
  end.
Proof.
  induction vs as [|[dp fn] vs IH]; intros st Hst; simpl; [done|].
  pose proof (visit_file_budget dp fn st Hst) as Hv.
  destruct (visit dp fn st); [by apply IH|done].
Qed.

(** *** First occurrences *)

Lemma first_by_source_fresh seen0 cs d :
  d ∈ first_by_source seen0 cs → source d ∉ seen0.
Proof.
  revert seen0. induction cs as [|c cs IH]; intros seen0; simpl.
  - by intros ?%elem_of_nil.
  - case_bool_decide as Hc; [apply IH|].
    intros [->|Hd%IH]%elem_of_cons; [done|set_solver].
Qed.

Lemma first_by_source_NoDup seen0 cs :
  NoDup (source <$> first_by_source seen0 cs).
Proof.
  revert seen0. induction cs as [|c cs IH]; intros seen0; simpl.
  - constructor.
  - case_bool_decide as Hc; [apply IH|].
    rewrite fmap_cons. constructor; [|apply IH].
    intros (d & Hd & Hin)%list_elem_of_fmap.
    apply first_by_source_fresh in Hin. set_solver.
Qed.

(** A document that [first_by_source] keeps is the first of its source. *)
Lemma first_by_source_first seen0 cs d :
  d ∈ first_by_source seen0 cs →
  ∃ j, cs !! j = Some d ∧
       ∀ j' c, (j' < j)%nat → cs !! j' = Some c → source c ≠ source d.
Proof.
  revert seen0. induction cs as [|c cs IH]; intros seen0; simpl.
  - by intros ?%elem_of_nil.
  - case_bool_decide as Hc.
    + intros Hd. pose proof (first_by_source_fresh _ _ _ Hd) as Hfresh.
      destruct (IH _ Hd) as (j & Hj & Hfirst).
      exists (S j). split; [done|].
      intros [|j'] c' Hlt Hc'; simpl in Hc'.
      * injection Hc' as <-. by intros Heq; rewrite Heq in Hc.
      * apply (Hfirst j'); [lia|done].
    + intros [->|Hd]%elem_of_cons.
      * exists 0%nat. split; [done|]. intros; lia.
      * pose proof (first_by_source_fresh _ _ _ Hd) as Hfresh.
        destruct (IH _ Hd) as (j & Hj & Hfirst).
        exists (S j). split; [done|].
        intros [|j'] c' Hlt Hc'; simpl in Hc'.
        -- injection Hc' as <-. set_solver.
        -- apply (Hfirst j'); [lia|done].
Qed.

(** The documents the loop adds are the first occurrences among the
    candidates of its visits, all of them if it runs to the end and a
    prefix of them if it returns early. *)
Lemma run_first vs : ∀ st,
  let full := first_by_source (seen st) (cands vs) in
  match run' vs st with
  | Running st' =>
      docs st' = docs st ++ full ∧
      seen st' = list_to_set (source <$> full) ∪ seen st
  | Returned ds => ∃ new, new `prefix_of` full ∧ ds = docs st ++ new
  end.
Proof.
  induction vs as [|[dp fn] vs IH]; intros st; simpl.
  - split; [by rewrite app_nil_r|set_solver].
  - rewrite visit_file_spec. unfold candidates. simpl.
    fold (cands vs).
    destruct (eligible' (dp ++ [fn])); simpl; [|apply IH].
    case_bool_decide as Hseen; simpl; [apply IH|].
    destruct (_ <=? _)%Z.
    + eexists [_]. split; [|done]. by eexists.
    + specialize (IH (add_doc (doc_of (dp ++ [fn])) st)). simpl in IH.
      destruct (run' vs _) as [st'|ds].
      * destruct IH as [-> ->]. split; [by rewrite <- app_assoc|].
        set_solver.
      * destruct IH as (new & Hpre & ->).
        eexists (_ :: new). split; [by apply prefix_cons|].
        by rewrite <- app_assoc.
Qed.

Lemma prefix_fmap_NoDup {A B} (f : A → B) (l1 l2 : list A) :
  l1 `prefix_of` l2 → NoDup (f <$> l2) → NoDup (f <$> l1).
Proof.
  intros [k ->]. rewrite fmap_app. by intros [? _]%NoDup_app.
Qed.

(** What [collect] returns: the first occurrences among the candidates of
    the whole walk, or a prefix of them that reached the budget. *)
Lemma collect_first root :
  let full := first_by_source ∅ (cands (order [] root)) in
  collect' root = full
  ∨ (collect' root `prefix_of` full
     ∧ (MAX_TOTAL_BYTES ≤ sum_len (collect' root))%Z).
Proof.
  intros full. rewrite collect_run.
  pose proof (run_first (order [] root) init_state) as Hf.
  pose proof (run_budget (order [] root) init_state within_budget_init) as Hb.
  simpl in Hf. fold full in Hf.
  destruct (run' _ init_state) as [st|ds].
  - left. by destruct Hf as [-> _].
  - right. destruct Hf as (new & Hpre & ->).
    destruct Hb as (ds' & d & _ & _ & Hge). by split.
Qed.

(** The result in closed form: the loop keeps the first occurrences among
    the candidates and stops at the first that brings the total to the
    budget. *)
Lemma run_until vs : ∀ st,
  match run' vs st with
  | Running st' => docs st'
  | Returned ds => ds
  end
  = docs st ++ until_budget (total st) (first_by_source (seen st) (cands vs)).
Proof.
  induction vs as [|[dp fn] vs IH]; intros st; simpl.
  - by rewrite app_nil_r.
  - rewrite visit_file_spec. unfold candidates. simpl.
    fold (cands vs).
    destruct (eligible' (dp ++ [fn])); simpl; [|apply IH].
    case_bool_decide as Hseen; simpl; [apply IH|].
    destruct (_ <=? _)%Z; [done|].
    rewrite (IH (add_doc (doc_of (dp ++ [fn])) st)). simpl.
    by rewrite <- app_assoc.
Qed.

Lemma collect_until root :
  collect' root
  = until_budget 0 (first_by_source ∅ (cands (order [] root))).
Proof. rewrite collect_run. apply (run_until _ init_state). Qed.

Lemma until_budget_prefix t ds : until_budget t ds `prefix_of` ds.
Proof.
  revert t. induction ds as [|d ds IH]; intros t; simpl; [done|].
  destruct (_ <=? _)%Z.
  - by apply prefix_cons, prefix_nil.
  - by apply prefix_cons.
Qed.

Lemma first_by_source_sublist seen0 cs :
  first_by_source seen0 cs `sublist_of` cs.
Proof.
  revert seen0. induction cs as [|c cs IH]; intros seen0; simpl; [done|].
  case_bool_decide.
  - by apply sublist_cons.
  - by apply sublist_skip.
Qed.

(** A selection of candidates is the documents of a selection of visits. *)
Lemma candidates_sublist vs : ∀ l,
  l `sublist_of` cands vs →
  ∃ vs', vs' `sublist_of` vs ∧ l = doc_at LOCK_BASENAMES fs <$> vs'.
Proof.
  induction vs as [|[dp fn] vs IH]; intros l.
  - intros ->%sublist_nil_r. by exists [].
  - unfold candidates. simpl. fold (cands vs).
    destruct (eligible' (dp ++ [fn])).
    + intros [Hl|(l' & -> & Hl')]%sublist_cons_r.
      * destruct (IH l Hl) as (vs' & Hvs & ->).
        exists vs'. split; [by apply sublist_cons|done].
      * destruct (IH l' Hl') as (vs' & Hvs & ->).
        exists ((dp, fn) :: vs'). split; [by apply sublist_skip|done].
    + intros Hl. destruct (IH l Hl) as (vs' & Hvs & ->).
      exists vs'. split; [by apply sublist_cons|done].
Qed.

(** The visits of the walk below [dp] are in directories below [dp]. *)
Lemma visit_order_below t : ∀ dp v,
  v ∈ order dp t → ∃ below, v.1 = dp ++ below.
Proof.
  induction t as [ds fns IH] using listing_ind. intros dp v. simpl.
  intros [Hin|Hin]%elem_of_app.
  - apply list_elem_of_fmap in Hin as (fn' & -> & _).
    exists []. by rewrite app_nil_r.
  - induction IH as [|[d sub] rest Hsub _ IHrest]; simpl in Hin;
      [by apply elem_of_nil in Hin|].
    apply elem_of_app in Hin as [Hin|Hin]; [|by apply IHrest].
    case_bool_decide as Hskip; [by apply elem_of_nil in Hin|].
    destruct sub as [t'|]; [|by apply elem_of_nil in Hin].
    destruct (Hsub t' eq_refl _ _ Hin) as (below & ->).
    exists (d :: below). by rewrite <- app_assoc.
Qed.

(** The visits below the subdirectories [ds] of [dp] are in directories
    below [dp / d] for some [d] of [ds]. *)
Lemma visit_subdirs_below dp ds v :
  v ∈ visit_subdirs SKIP_DIRS order dp ds →
  ∃ d below, d ∈ ds.*1 ∧ v.1 = dp ++ d :: below.
Proof.
  induction ds as [|[d sub] rest IH]; simpl;
    [by intros ?%elem_of_nil|].
  intros [Hin|Hin]%elem_of_app.
  - case_bool_decide as Hskip; [by apply elem_of_nil in Hin|].
    destruct sub as [t'|]; [|by apply elem_of_nil in Hin].
    destruct (visit_order_below t' _ _ Hin) as (below & ->).
    exists d, below. split; [by left|]. by rewrite <- app_assoc.
  - destruct (IH Hin) as (d' & below & Hd' & ->).
    exists d', below. split; [by right|done].
Qed.

Lemma StronglySorted_lookup {A} (R : A → A → Prop) (l : list A) i j x y :
  StronglySorted R l → (i < j)%nat →
  l !! i = Some x → l !! j = Some y → R x y.
Proof.
  intros Hl. revert i j. induction Hl as [|a l Hl IH Ha]; intros i j Hij Hi Hj.
  - by rewrite lookup_nil in Hi.
  - destruct j as [|j]; [lia|]. simpl in Hj.
    destruct i as [|i]; simpl in Hi.
    + injection Hi as <-. eapply Forall_forall; [exact Ha|].
      by eapply list_elem_of_lookup_2.
    + apply (IH i j); [lia|done..].
Qed.

Lemma StronglySorted_sublist {A} (R : A → A → Prop) (l1 l2 : list A) :
  l1 `sublist_of` l2 → StronglySorted R l2 → StronglySorted R l1.
Proof.
  induction 1 as [|a l1 l2 Hsub IH|a l1 l2 Hsub IH]; [done|..].
  - intros [Hl2 Ha]%StronglySorted_inv. constructor; [by apply IH|].
    eapply Forall_forall. intros y Hy. eapply Forall_forall; [exact Ha|].
    by eapply elem_of_sublist.
  - intros [Hl2 _]%StronglySorted_inv. by apply IH.
Qed.

(** In a tree with distinct directory names each directory is visited
    once, so its files come in the ascending order of the inner loop. *)
Lemma visit_order_ascending t :
  distinct_dirs t → ∀ dp, StronglySorted dir_ascending (order dp t).
Proof.
  induction t as [ds fns IH] using listing_ind.
  intros Hd dp. inversion Hd as [ds0 fns0 Hnd Hsubs]; subst. simpl.
  apply StronglySorted_app_2.
  - intros x y Hx Hy.
    apply list_elem_of_fmap in Hx as (fn & -> & _).
    destruct (visit_subdirs_below _ _ _ Hy) as (d' & below' & _ & Hy1).
    intros Heq. simpl in Heq. rewrite Hy1 in Heq.
    apply (f_equal length) in Heq. rewrite length_app in Heq.
    simpl in Heq. lia.
  - pose proof (Sorted_StronglySorted _ _ (sorted_Sorted fns)) as Hs.
    induction Hs as [|a l Hl IHl Ha]; simpl; constructor; [done|].
    apply Forall_fmap. eapply Forall_impl; [exact Ha|].
    by intros b Hab _.
  - clear Hd. revert Hnd Hsubs IH.
    induction ds as [|[d sub] rest IHrest]; intros Hnd Hsubs IH; simpl;
      [constructor|].
    apply NoDup_cons in Hnd as [Hd Hnd].
    apply Forall_cons in Hsubs as [Hsub Hsubs].
    apply Forall_cons in IH as [IHsub IH].
    apply StronglySorted_app_2; [| |by apply IHrest].
    + intros x y Hx Hy.
      case_bool_decide; [by apply elem_of_nil in Hx|].
      destruct sub as [t'|]; [|by apply elem_of_nil in Hx].
      destruct (visit_order_below t' _ _ Hx) as (below & Hx1).
      destruct (visit_subdirs_below _ _ _ Hy) as (d' & below' & Hd' & Hy1).
      intros Heq. rewrite Hx1, Hy1, <- app_assoc in Heq.
      apply app_inv_head in Heq. simpl in Heq.
      injection Heq as -> _. done.
    + case_bool_decide; [constructor|].
      destruct sub as [t'|]; [|constructor].
      apply IHsub; [done|]. by apply Hsub.
Qed.

(** The returned documents are the documents of visits of the walk, in
    the order of the walk. *)
Lemma collect_visits root :
  ∃ visits,
    visits `sublist_of` order [] root ∧
    collect' root = doc_at LOCK_BASENAMES fs <$> visits.
Proof.
  rewrite collect_until.
  apply candidates_sublist.
  etrans; [|apply first_by_source_sublist].
  destruct (until_budget_prefix 0 (first_by_source ∅ (cands (order [] root))))
    as [k Hk].
  rewrite Hk at 2. by apply sublist_inserts_r.
Qed.

(** Listings of one tree that differ in the order of files only are
    visited alike. *)
Lemma same_tree_order t : ∀ t' dp, same_tree t t' → order dp t = order dp t'.
Proof.
  induction t as [ds fns IH] using listing_ind.
  intros t' dp Hs. inversion Hs as [ds1 ds' fns1 fns' Hperm Hds]; subst.
  simpl. rewrite (sorted_perm fns fns' Hperm). f_equal.
  clear Hs Hperm. revert IH.
  induction Hds as [|[d sub] [d' sub'] rest rest' [Hd Hsub] _ IHrest];
    intros IH; [done|].
  apply Forall_cons in IH as [IHsub IHr]. simpl in *. subst d'.
  rewrite (IHrest IHr). f_equal.
  destruct (bool_decide (d ∈ SKIP_DIRS)); [done|].
  destruct Hsub as [t1 t2 Ht|]; [|done].
  by apply IHsub.
Qed.

End collector_facts.

(** ** C1: the total-size budget *)

(** C1 (as amended).  The budget is tested after a document has been
    added, so it bounds the documents before the last one: the lengths of
    all returned contents but the last sum to less than
    [MAX_TOTAL_BYTES].  The result is what the walk without a budget would
    give, or a prefix of it whose total has reached the budget: the walk
    stops there and the partial result stands. *)
Theorem collect_budget
    (INCLUDE_EXTS KEY_FILENAMES LOCK_BASENAMES SKIP_DIRS : gset (list N))
    (fs : filesys) (include_readme : bool) (root : listing) :
  let ds := collect INCLUDE_EXTS KEY_FILENAMES LOCK_BASENAMES SKIP_DIRS fs
              include_readme root in
  let full := first_by_source ∅
                (candidates INCLUDE_EXTS KEY_FILENAMES LOCK_BASENAMES fs
                   include_readme (visit_order SKIP_DIRS [] root)) in
  (sum_len (removelast ds) < MAX_TOTAL_BYTES)%Z ∧
  (ds = full ∨ (ds `prefix_of` full ∧ (MAX_TOTAL_BYTES ≤ sum_len ds)%Z)).
Proof.
  intros ds full. split; [|apply collect_first].
  unfold ds. rewrite collect_run.
  pose proof (run_budget INCLUDE_EXTS KEY_FILENAMES LOCK_BASENAMES fs
                include_readme (visit_order SKIP_DIRS [] root) init_state
                within_budget_init) as Hb.
  destruct (run _ _ _ _ _ _ init_state) as [st|ds0].
  - destruct Hb as [Htot Hlt].
    pose proof (sum_len_removelast (docs st)). lia.
  - destruct Hb as (ds' & d & -> & Hlt & _). by rewrite removelast_last.
Qed.

(** ** C7: no two documents of one source *)

(** C7.  The sources of the returned documents are pairwise distinct, and
    each returned document is the first candidate of its source in the
    order of the walk: every earlier candidate has another source.
    Nothing else is left out: the result is the first candidate of every
    source, in the order of the walk, up to and including the first
    document that brings the total to the budget; so it is all of them, or
    a prefix of them whose total has reached the budget. *)
Theorem collect_no_duplicates
    (INCLUDE_EXTS KEY_FILENAMES LOCK_BASENAMES SKIP_DIRS : gset (list N))
    (fs : filesys) (include_readme : bool) (root : listing) :
  let ds := collect INCLUDE_EXTS KEY_FILENAMES LOCK_BASENAMES SKIP_DIRS fs
              include_readme root in
  let cs := candidates INCLUDE_EXTS KEY_FILENAMES LOCK_BASENAMES fs
              include_readme (visit_order SKIP_DIRS [] root) in
  ds = until_budget 0 (first_by_source ∅ cs) ∧
  (ds = first_by_source ∅ cs
   ∨ (ds `prefix_of` first_by_source ∅ cs
      ∧ (MAX_TOTAL_BYTES ≤ sum_len ds)%Z)) ∧
  NoDup (source <$> ds) ∧
  ∀ d, d ∈ ds →
    ∃ j, cs !! j = Some d ∧
         ∀ j' c, (j' < j)%nat → cs !! j' = Some c → source c ≠ source d.
Proof.
  intros ds cs.
  assert (Heq : ds = until_budget 0 (first_by_source ∅ cs))
    by apply collect_until.
  assert (Hpre : ds `prefix_of` first_by_source ∅ cs)
    by (rewrite Heq; apply until_budget_prefix).
  split; [done|]. split; [apply collect_first|]. split.
  - eapply prefix_fmap_NoDup; [exact Hpre|apply first_by_source_NoDup].
  - intros d Hd. apply (first_by_source_first ∅).
    destruct Hpre as [k ->]. apply elem_of_app. by left.
Qed.

(** ** C8: determinism *)

(** C8.  [collect] is a function of the tree, and the order in which the
    scan of a directory reports its files does not matter: two listings of
    one tree that differ only there give the same documents in the same
    order.  The order of [sorted] is ascending and has the same names, and
    it is the order of the result: in a tree whose directories list no
    subdirectory twice, the returned documents are the documents of visits
    of the walk, in which the files of each directory come in ascending
    order of their names. *)
Theorem collect_deterministic
    (INCLUDE_EXTS KEY_FILENAMES LOCK_BASENAMES SKIP_DIRS : gset (list N))
    (fs : filesys) (include_readme : bool) (root root' : listing) :
  same_tree root root' →
  collect INCLUDE_EXTS KEY_FILENAMES LOCK_BASENAMES SKIP_DIRS fs
    include_readme root
  = collect INCLUDE_EXTS KEY_FILENAMES LOCK_BASENAMES SKIP_DIRS fs
      include_readme root' ∧
  (∀ fns : list str, Sorted str_le (sorted fns) ∧ sorted fns ≡ₚ fns) ∧
  (distinct_dirs root →
   ∃ visits,
     visits `sublist_of` visit_order SKIP_DIRS [] root ∧
     collect INCLUDE_EXTS KEY_FILENAMES LOCK_BASENAMES SKIP_DIRS fs
       include_readme root
     = doc_at LOCK_BASENAMES fs <$> visits ∧
     ascending_in_dirs visits).
Proof.
  intros Hs. split; [|split].
  - by rewrite !collect_run, (same_tree_order SKIP_DIRS root root' [] Hs).
  - intros fns. split; [apply sorted_Sorted|apply sorted_Permutation].
  - intros Hd.
    destruct (collect_visits INCLUDE_EXTS KEY_FILENAMES LOCK_BASENAMES
                SKIP_DIRS fs include_readme root) as (visits & Hsub & Heq).
    exists visits. split; [done|]. split; [done|].
    intros i j v w Hij Hi Hj.
    apply (StronglySorted_lookup dir_ascending visits i j); [|done..].
    eapply StronglySorted_sublist; [exact Hsub|].
    by apply visit_order_ascending.
Qed.

(** ** Closed instances for the collector *)

Lemma collect_deterministic_witness :
  collect EX_INCLUDE_EXTS EX_KEY_FILENAMES EX_LOCK_BASENAMES EX_SKIP_DIRS
    fs_one_line false tree_ba
  = collect EX_INCLUDE_EXTS EX_KEY_FILENAMES EX_LOCK_BASENAMES EX_SKIP_DIRS
      fs_one_line false tree_ab ∧
  ∃ visits,
    visits `sublist_of` visit_order EX_SKIP_DIRS [] tree_ba ∧
    collect EX_INCLUDE_EXTS EX_KEY_FILENAMES EX_LOCK_BASENAMES EX_SKIP_DIRS
      fs_one_line false tree_ba
    = doc_at EX_LOCK_BASENAMES fs_one_line <$> visits ∧
    ascending_in_dirs visits.
Proof.
  assert (Hsame : same_tree tree_ba tree_ab)
    by (constructor; [apply perm_swap|constructor]).
  assert (Hdist : distinct_dirs tree_ba)
    by (constructor; constructor).
  pose proof (collect_deterministic EX_INCLUDE_EXTS EX_KEY_FILENAMES
                EX_LOCK_BASENAMES EX_SKIP_DIRS fs_one_line false
                tree_ba tree_ab Hsame) as H.
  split; [exact (proj1 H)|exact (proj2 (proj2 H) Hdist)].
Defined.

Example collect_sorted_example :
  collect EX_INCLUDE_EXTS EX_KEY_FILENAMES EX_LOCK_BASENAMES EX_SKIP_DIRS
    fs_one_line false tree_ba
  = [ {| source := lit "a.py"; content := lit "A=b" |};
      {| source := lit "b.py"; content := lit "A=b" |} ].
Proof. vm_compute. reflexivity. Qed.

(** The example run of the spec: [node_modules] is pruned, the value in
    [.env] is replaced, and [package-lock.json] is cut to 200 lines and the
    marker. *)
Example collect_spec_example :
  collect EX_INCLUDE_EXTS EX_KEY_FILENAMES EX_LOCK_BASENAMES EX_SKIP_DIRS
    fs_spec_example false tree_spec_example
  = [ {| source := lit ".env"; content := lit "API_KEY=<YOUR_VALUE>" |};
      {| source := lit "app.py"; content := lit "print(1)" |};
      {| source := lit "package-lock.json";
         content := join LF (repeat (lit "{}") 200) ++ TRUNCATED |} ].
Proof. vm_compute. reflexivity. Qed.

(** Two files of one normalized path: the one reached first is kept. *)
Example collect_clash_example :
  collect EX_INCLUDE_EXTS EX_KEY_FILENAMES EX_LOCK_BASENAMES EX_SKIP_DIRS
    fs_clash false tree_clash
  = [ {| source := lit "a/b.py"; content := lit "first" |} ].
Proof. vm_compute. reflexivity. Qed.

(** *** A tree that overshoots the budget *)

(** A file that is one long run of a plain ASCII character is stored as it
    is, whatever its name. *)
Lemma read_with_rules_uniform (LOCK_BASENAMES : gset (list N)) fs p b n :
  open_rb fs p = Data (repeat b n) →
  Byte.to_N b < 0x80 → is_linebreak (Byte.to_N b) = false →
  Byte.to_N b ≠ EQ → (0 < n ≤ Z.to_nat MAX_FILE_BYTES)%nat →
  read_with_rules LOCK_BASENAMES fs p = repeat (Byte.to_N b) n.
Proof.
  intros Hopen Hascii Hbreak Heq Hn.
  set (text := repeat (Byte.to_N b) n).
  assert (Hraw : read_bytes_as_text fs p MAX_FILE_BYTES = text).
  { unfold read_bytes_as_text. rewrite Hopen.
    rewrite take_ge by (rewrite repeat_length; lia).
    by apply decode_repeat_ascii. }
  assert (Hline : one_line text).
  { unfold one_line, text. apply Forall_forall.
    by intros c ->%list_elem_of_In%repeat_spec. }
  assert (Hne : text ≠ []).
  { unfold text. destruct n; [lia|done]. }
  assert (Hsplit : splitlines text = [text]) by by apply splitlines_single.
  assert (Hsan : sanitize_env text = text).
  { rewrite sanitize_env_map, Hsplit. simpl.
    unfold sanitize_line.
    destruct (contains EQ text) eqn:Hc; [|done].
    apply contains_true, list_elem_of_In, repeat_spec in Hc. by subst. }
  assert (Hhead : ∀ cap, (1 ≤ cap)%nat →
                        head_lines text (Z.of_nat cap) = text).
  { intros cap Hcap. apply head_lines_within. by rewrite Hsplit. }
  unfold read_with_rules. rewrite Hraw.
  assert (Hpre : (if startswith (path_name p) ENV_PREFIX
                  then sanitize_env text else text) = text)
    by (by destruct (startswith _ _)).
  rewrite Hpre.
  destruct (is_lock_like _ _); [apply Hhead; unfold LOCK_MAX_LINES; lia|].
  destruct (str_in _ _); [apply Hhead; unfold CONFIG_MAX_LINES; lia|done].
Qed.

Section run_steps.

Context (INCLUDE_EXTS KEY_FILENAMES LOCK_BASENAMES : gset (list N)).
Context (fs : filesys) (include_readme : bool).

Local Abbreviation run' :=
  (run INCLUDE_EXTS KEY_FILENAMES LOCK_BASENAMES fs include_readme).

(** One more document while the total stays below the budget. *)
Lemma run_step_add dp fn vs st d :
  eligible INCLUDE_EXTS KEY_FILENAMES fs include_readme (dp ++ [fn]) = true →
  rel_of (dp ++ [fn]) ∉ seen st →
  d = {| source := rel_of (dp ++ [fn]);
         content := read_with_rules LOCK_BASENAMES fs (dp ++ [fn]) |} →
  (total st + Z.of_nat (length (content d)) < MAX_TOTAL_BYTES)%Z →
  run' ((dp, fn) :: vs) st = run' vs (add_doc d st).
Proof.
  intros Hel Hseen -> Hlt. simpl. rewrite visit_file_spec, Hel.
  rewrite bool_decide_eq_false_2 by done. simpl in *.
  destruct (Z.leb_spec MAX_TOTAL_BYTES
              (total st + Z.of_nat (length (read_with_rules LOCK_BASENAMES fs
                                              (dp ++ [fn]))))); [lia|done].
Qed.

(** The document that reaches the budget ends the walk. *)
Lemma run_step_return dp fn vs st d :
  eligible INCLUDE_EXTS KEY_FILENAMES fs include_readme (dp ++ [fn]) = true →
  rel_of (dp ++ [fn]) ∉ seen st →
  d = {| source := rel_of (dp ++ [fn]);
         content := read_with_rules LOCK_BASENAMES fs (dp ++ [fn]) |} →
  (MAX_TOTAL_BYTES ≤ total st + Z.of_nat (length (content d)))%Z →
  run' ((dp, fn) :: vs) st = Returned (docs st ++ [d]).
Proof.
  intros Hel Hseen -> Hge. simpl. rewrite visit_file_spec, Hel.
  rewrite bool_decide_eq_false_2 by done. simpl in *.
  destruct (Z.leb_spec MAX_TOTAL_BYTES
              (total st + Z.of_nat (length (read_with_rules LOCK_BASENAMES fs
                                              (dp ++ [fn]))))); [done|lia].
Qed.

End run_steps.

Lemma big_text_length : Z.of_nat (length big_text) = 524287%Z.
Proof. unfold big_text, big_size. rewrite repeat_length. lia. Qed.

Lemma read_big (p : relpath) : read_with_rules EX_LOCK_BASENAMES fs_big p = big_text.
Proof.
  apply (read_with_rules_uniform EX_LOCK_BASENAMES fs_big p Byte.x61 big_size).
  - reflexivity.
  - reflexivity.
  - reflexivity.
  - discriminate.
  - unfold big_size, MAX_FILE_BYTES. lia.
Qed.

Lemma big_doc_eq (fn : list N) :
  rel_of ([] ++ [fn]) = fn →
  big_doc fn = {| source := rel_of ([] ++ [fn]);
                  content := read_with_rules EX_LOCK_BASENAMES fs_big
                               ([] ++ [fn]) |}.
Proof. intros H. by rewrite read_big, H. Qed.

Ltac big_eligible := vm_compute; reflexivity.
Ltac big_unseen :=
  cbn [seen add_doc source big_doc init_state];
  apply (bool_decide_unpack _); vm_compute; reflexivity.
Ltac big_document := apply big_doc_eq; vm_compute; reflexivity.
Ltac big_total :=
  cbn [total add_doc content big_doc init_state];
  rewrite !big_text_length; unfold MAX_TOTAL_BYTES; lia.

Ltac big_step_add :=
  match goal with
  | |- context [run _ _ _ _ _ (([], ?fn) :: ?vs) ?st] =>
      rewrite (run_step_add EX_INCLUDE_EXTS EX_KEY_FILENAMES EX_LOCK_BASENAMES
                 fs_big false [] fn vs st (big_doc fn));
      [|big_eligible|big_unseen|big_document|big_total]
  end.

Ltac big_step_return :=
  match goal with
  | |- context [run _ _ _ _ _ (([], ?fn) :: ?vs) ?st] =>
      rewrite (run_step_return EX_INCLUDE_EXTS EX_KEY_FILENAMES
                 EX_LOCK_BASENAMES fs_big false [] fn vs st (big_doc fn));
      [|big_eligible|big_unseen|big_document|big_total]
  end.

(** Eleven files of 524287 characters each: after ten the total is
    5242870, still below the budget of 5242880, so the eleventh is added
    and the contents sum to 5767157. *)
Lemma collect_exceeds_budget :
  collect EX_INCLUDE_EXTS EX_KEY_FILENAMES EX_LOCK_BASENAMES EX_SKIP_DIRS
    fs_big false big_tree = big_doc <$> big_names ∧
  sum_len (collect EX_INCLUDE_EXTS EX_KEY_FILENAMES EX_LOCK_BASENAMES
             EX_SKIP_DIRS fs_big false big_tree) = 5767157%Z ∧
  ¬ (sum_len (collect EX_INCLUDE_EXTS EX_KEY_FILENAMES EX_LOCK_BASENAMES
                EX_SKIP_DIRS fs_big false big_tree) ≤ MAX_TOTAL_BYTES)%Z.
Proof.
  assert (Horder : visit_order EX_SKIP_DIRS [] big_tree
                   = (λ fn, ([], fn)) <$> big_names)
    by (vm_compute; reflexivity).
  assert (Hc : collect EX_INCLUDE_EXTS EX_KEY_FILENAMES EX_LOCK_BASENAMES
                 EX_SKIP_DIRS fs_big false big_tree = big_doc <$> big_names).
  { rewrite collect_run, Horder. unfold big_names.
    cbn [fmap list_fmap].
    do 10 big_step_add. big_step_return. reflexivity. }
  assert (Hs : sum_len (big_doc <$> big_names) = 5767157%Z).
  { unfold sum_len, big_names. cbn [fmap list_fmap foldr content big_doc].
    rewrite !big_text_length. reflexivity. }
  rewrite Hc, Hs. clear Hc Hs Horder.
  split; [reflexivity|]. split; [reflexivity|].
  unfold MAX_TOTAL_BYTES. lia.
Qed.

(** ** Files that cannot be read *)


(** Well-formed UTF-8 decodes to its code points, malformed octets vanish:
    C3 A9 is U+00E9; E2 82 alone is an unfinished sequence; ED A0 80 would
    be a surrogate; C0 80 is an overlong form. *)
Example decode_examples :
  decode_utf8_ignore [Byte.xc3; Byte.xa9] = [233] ∧
  decode_utf8_ignore [Byte.xe2; Byte.x82; Byte.xac] = [8364] ∧
  decode_utf8_ignore [Byte.xf0; Byte.x9f; Byte.x98; Byte.x80] = [128512] ∧
  decode_utf8_ignore [Byte.xe2; Byte.x82; Byte.x41] = [65] ∧
  decode_utf8_ignore [Byte.xed; Byte.xa0; Byte.x80; Byte.x41] = [65] ∧
  decode_utf8_ignore [Byte.xc0; Byte.x80; Byte.x41] = [65] ∧
  decode_utf8_ignore [Byte.x41; Byte.xe2; Byte.x82] = [65].
Proof. repeat split; reflexivity. Qed.

Lemma collect_budget_witness :
  (sum_len (removelast
              (collect EX_INCLUDE_EXTS EX_KEY_FILENAMES EX_LOCK_BASENAMES
                 EX_SKIP_DIRS fs_one_line false tree_ab))
   < MAX_TOTAL_BYTES)%Z.
Proof.
  apply (collect_budget EX_INCLUDE_EXTS EX_KEY_FILENAMES EX_LOCK_BASENAMES
           EX_SKIP_DIRS fs_one_line false tree_ab).
Defined.

Lemma collect_no_duplicates_witness :
  ∃ j,
    candidates EX_INCLUDE_EXTS EX_KEY_FILENAMES EX_LOCK_BASENAMES fs_clash
      false (visit_order EX_SKIP_DIRS [] tree_clash) !! j
    = Some {| source := lit "a/b.py"; content := lit "first" |} ∧
    ∀ j' c, (j' < j)%nat →
      candidates EX_INCLUDE_EXTS EX_KEY_FILENAMES EX_LOCK_BASENAMES fs_clash
        false (visit_order EX_SKIP_DIRS [] tree_clash) !! j' = Some c →
      source c ≠ source {| source := lit "a/b.py"; content := lit "first" |}.
Proof.
  apply (proj2 (proj2 (proj2 (collect_no_duplicates EX_INCLUDE_EXTS
                                EX_KEY_FILENAMES EX_LOCK_BASENAMES
                                EX_SKIP_DIRS fs_clash false tree_clash)))).
  apply (bool_decide_unpack _). vm_compute. reflexivity.
Defined.

(** ** app.py: the selection *)

Lemma select_step_foldl relevance (pairs : list (FileAssessment * Document)) :
  ∀ selected,
    foldl (select_step relevance) selected pairs
    = selected ++ ((λ p, select_row p.1 p.2) <$> filter (qualifies relevance) pairs).
Proof.
  induction pairs as [|[a src] pairs IH]; intros selected; simpl.
  - by rewrite app_nil_r.
  - rewrite IH. unfold select_step. simpl.
    destruct (include a) eqn:Hi; simpl.
    + case_bool_decide as Hs.
      * rewrite filter_cons_True by done. simpl. by rewrite <- app_assoc.
      * rewrite filter_cons_False; [done|]. by intros [_ ?].
    + rewrite filter_cons_False; [done|]. unfold qualifies. simpl.
      rewrite Hi. by intros [? _].
Qed.

(** C2.  The loop of [build_selected] adds an item for a pair exactly when
    the assessment has [include] set and a score of at least the
    threshold; the selection is, in order, the items of the pairs that
    pass. *)
Theorem build_selected_iff
    (assess_files : list Document → list FileAssessment)
    (docs : list Document) (relevance : Z) :
  (∀ selected a src,
     length (select_step relevance selected (a, src)) = S (length selected)
     ↔ include a = true ∧ (relevance ≤ score a)%Z) ∧
  (∀ selected a src,
     ¬ (include a = true ∧ (relevance ≤ score a)%Z) →
     select_step relevance selected (a, src) = selected) ∧
  (build_selected assess_files docs relevance).1
  = (λ p, select_row p.1 p.2)
      <$> filter (qualifies relevance) (zip (assess_files docs) docs).
Proof.
  split; [|split].
  - intros selected a src. unfold select_step. simpl.
    destruct (include a); simpl.
    + case_bool_decide; simpl.
      * rewrite length_app. simpl. split; [done|lia].
      * split; [lia|]. by intros [_ ?].
    + split; [lia|]. by intros [? _].
  - intros selected a src Hno. unfold select_step. simpl.
    destruct (include a); simpl; [|done].
    case_bool_decide; [|done]. by destruct Hno.
  - unfold build_selected. simpl. by rewrite select_step_foldl.
Qed.

Example build_selected_example :
  (build_selected assess_high docs_two 3).1
  = [ select_row {| path := lit "app.py"; score := 4; include := true;
                    reason := lit "core"; summary := lit "entry point" |}
        {| source := lit "app.py"; content := lit "print(1)" |};
      select_row {| path := lit ".env"; score := 4; include := true;
                    reason := lit "core"; summary := lit "entry point" |}
        {| source := lit ".env"; content := lit "A=<YOUR_VALUE>" |} ]
  ∧ (build_selected assess_high docs_two 5).1 = [].
Proof. split; reflexivity. Qed.

Lemma fallback_row_dom (d : Document) :
  dom (fallback_row d) = ({["path"; "content"]} : gset string).
Proof. unfold fallback_row. rewrite !dom_insert_L, dom_empty_L. set_solver. Qed.

(** C3.  When documents were collected and the selection by threshold is
    empty, the list handed to the synthesizer is the fallback: one item per
    collected document, in order, holding the document's path and content
    and no other key. *)
Theorem fallback_selection
    (assess_files : list Document → list FileAssessment)
    (docs : list Document) (relevance : Z) :
  docs ≠ [] →
  (build_selected assess_files docs relevance).1 = [] →
  api_generate_selected assess_files docs relevance
  = Some (fallback_row <$> docs) ∧
  ∀ i d, docs !! i = Some d →
    ∃ r, (fallback_row <$> docs) !! i = Some r ∧
         r !! "path" = Some (VStr (source d)) ∧
         r !! "content" = Some (VStr (content d)) ∧
         dom r = ({["path"; "content"]} : gset string).
Proof.
  intros Hne Hsel. split.
  - unfold api_generate_selected. destruct docs as [|d ds]; [done|].
    destruct (build_selected assess_files (d :: ds) relevance) as [sel ass].
    simpl in Hsel. by rewrite Hsel.
  - intros i d Hd. exists (fallback_row d).
    split; [by rewrite list_lookup_fmap, Hd|].
    split; [by unfold fallback_row; rewrite lookup_insert_eq|].
    split; [|apply fallback_row_dom].
    unfold fallback_row. rewrite lookup_insert_ne by done.
    by rewrite lookup_insert_eq.
Qed.

Lemma fallback_selection_witness :
  api_generate_selected assess_low docs_two 3 = Some (fallback_row <$> docs_two).
Proof.
  apply (fallback_selection assess_low docs_two 3).
  - discriminate.
  - reflexivity.
Defined.

Lemma filter_none {A} (P : A → Prop) `{∀ x, Decision (P x)} (l : list A) :
  Forall (λ x, ¬ P x) l → filter P l = [].
Proof.
  induction 1 as [|x l Hx Hl IH]; [done|].
  by rewrite filter_cons_False.
Qed.

(** Assessments that all fail the test leave the selection empty. *)
Lemma build_selected_none
    (assess_files : list Document → list FileAssessment) docs relevance :
  Forall (λ a, ¬ (include a = true ∧ (relevance ≤ score a)%Z))
    (assess_files docs) →
  (build_selected assess_files docs relevance).1 = [].
Proof.
  intros Hall. unfold build_selected. simpl. rewrite select_step_foldl. simpl.
  rewrite filter_none; [done|].
  apply Forall_forall. intros [a src] Hin.
  apply elem_of_zip_l in Hin. simpl in Hin.
  rewrite Forall_forall in Hall. by apply Hall.
Qed.

Lemma build_selected_iff_witness :
  (build_selected assess_high docs_two 3).1
  = (λ p, select_row p.1 p.2)
      <$> filter (qualifies 3) (zip (assess_high docs_two) docs_two).
Proof. apply (build_selected_iff assess_high docs_two 3). Defined.

(** * Further properties *)

(** ** Lines *)

Lemma splitlines_Forall_aux (P : N → Prop) n :
  ∀ s : str, (length s ≤ n)%nat → Forall P s → Forall (Forall P) (splitlines s).
Proof.
  induction n as [|n IH]; intros [|c s] Hn Hs; simpl in *; try lia;
    try constructor.
  - apply Forall_cons in Hs as [Hc Hs].
    destruct (is_linebreak c).
    + constructor; [constructor|].
      destruct s as [|d s]; [constructor|].
      apply Forall_cons in Hs as [Hd Hs'].
      destruct ((c =? CR) && (d =? LF)); apply IH; simpl in *; try lia; try done.
      by constructor.
    + assert (Hr : Forall (Forall P) (splitlines s)) by (apply IH; [lia|done]).
      destruct (splitlines s) as [|l ls].
      * constructor; [|constructor]. by constructor.
      * apply Forall_cons in Hr as [Hl Hls]. constructor; [|done].
        by constructor.
Qed.

Lemma splitlines_Forall (P : N → Prop) (s : str) :
  Forall P s → Forall (Forall P) (splitlines s).
Proof. by apply (splitlines_Forall_aux P (length s)). Qed.

Lemma join_Forall (P : N → Prop) sep (ls : list str) :
  P sep → Forall (Forall P) ls → Forall P (join sep ls).
Proof.
  intros Hsep. induction 1 as [|l ls Hl Hls IH]; [constructor|].
  destruct ls as [|l2 ls]; [done|].
  change (join sep (l :: l2 :: ls)) with (l ++ sep :: join sep (l2 :: ls)).
  apply Forall_app. split; [done|]. by constructor.
Qed.

Lemma sanitize_line_Forall (P : N → Prop) (l : str) :
  Forall P PLACEHOLDER → Forall P l → Forall P (sanitize_line l).
Proof.
  intros HP Hl. unfold sanitize_line.
  destruct (contains EQ l && negb (startswith (lstrip l) [HASH])); [|done].
  destruct (strip (before_first EQ l)) as [|c r] eqn:Hk; [done|].
  apply Forall_app. split; [|done].
  rewrite <- Hk. by apply strip_Forall, before_first_keeps.
Qed.

Lemma sanitize_env_Forall (P : N → Prop) (s : str) :
  P LF → Forall P PLACEHOLDER → Forall P s → Forall P (sanitize_env s).
Proof.
  intros HLF HP Hs. rewrite sanitize_env_map.
  apply join_Forall; [done|].
  apply Forall_fmap. eapply Forall_impl; [by apply splitlines_Forall|].
  intros l Hl. by apply sanitize_line_Forall.
Qed.

Lemma head_lines_Forall (P : N → Prop) (s : str) n :
  P LF → Forall P TRUNCATED → Forall P s → Forall P (head_lines s n).
Proof.
  intros HLF HT Hs. unfold head_lines. case_bool_decide; [done|].
  apply Forall_app. split; [|done].
  apply join_Forall; [done|].
  unfold slice_to. case_bool_decide; by apply Forall_take, splitlines_Forall.
Qed.

Lemma splitlines_join_app (ls : list str) (t : str) :
  Forall one_line ls → ls ≠ [] →
  splitlines (join LF ls ++ LF :: t) = ls ++ splitlines t.
Proof.
  induction 1 as [|l ls Hl Hls IH]; [done|]. intros _.
  destruct ls as [|l2 ls].
  - simpl. by apply splitlines_line_LF.
  - change (join LF (l :: l2 :: ls)) with (l ++ LF :: join LF (l2 :: ls)).
    rewrite <- app_assoc, <- app_comm_cons.
    rewrite splitlines_line_LF by done. by rewrite IH.
Qed.

Lemma join_cons_cons sep (x : str) (l : str) (ls : list str) :
  join sep ((x ++ l) :: ls) = x ++ join sep (l :: ls).
Proof. destruct ls; simpl; [done|]. by rewrite <- app_assoc. Qed.

(** The lines joined by LF are no longer than the text they came from. *)
Lemma join_splitlines_length_aux n :
  ∀ s : str, (length s ≤ n)%nat →
    (length (join LF (splitlines s)) ≤ length s)%nat.
Proof.
  induction n as [|n IH]; intros [|c s] Hn; simpl in *; try lia.
  destruct (is_linebreak c).
  - assert (Hrest : ∀ r : str, (length r ≤ n)%nat →
        (length (join LF ([] :: splitlines r)) ≤ S (length r))%nat).
    { intros r Hr. specialize (IH r Hr).
      destruct (splitlines r); simpl in *; lia. }
    destruct s as [|d s]; [simpl; lia|].
    destruct ((c =? CR) && (d =? LF)).
    + specialize (Hrest s). simpl in *. lia.
    + apply Hrest. lia.
  - specialize (IH s). destruct (splitlines s) as [|l ls]; [simpl; lia|].
    change ((c :: l) :: ls) with (([c] ++ l) :: ls).
    rewrite (join_cons_cons LF [c] l ls). simpl in *. lia.
Qed.

Lemma join_splitlines_length (s : str) :
  (length (join LF (splitlines s)) ≤ length s)%nat.
Proof. by apply (join_splitlines_length_aux (length s)). Qed.

Lemma join_take_length (ls : list str) n :
  (length (join LF (take n ls)) ≤ length (join LF ls))%nat.
Proof.
  revert n. induction ls as [|l ls IH]; intros [|n]; simpl; try lia.
  specialize (IH n).
  destruct ls as [|l2 ls]; [by destruct n|].
  destruct n as [|n].
  - simpl. rewrite length_app. simpl. lia.
  - change (take (S n) (l2 :: ls)) with (l2 :: take n ls) in *.
    rewrite !length_app. simpl in *. lia.
Qed.

(** ** [sanitize_env]: terminators, lines, values, length *)

(** X1.  Whatever terminators the input uses (CR, CR LF, form feed, ...),
    the only line terminator in the output of [sanitize_env] is LF. *)
Theorem sanitize_env_only_LF (s : str) : is_linebreak_only_LF (sanitize_env s).
Proof.
  unfold is_linebreak_only_LF. rewrite sanitize_env_map.
  apply join_Forall; [done|].
  eapply Forall_impl;
    [apply sanitize_lines_one_line, splitlines_one_line|].
  intros l Hl. eapply Forall_impl; [exact Hl|].
  intros c Hc Hbreak. simpl in Hc. congruence.
Qed.

(** X2.  [sanitize_env] keeps the lines in number and order, each one
    sanitized, except that an empty last line is dropped. *)
Theorem sanitize_env_lines (s : str) :
  splitlines (sanitize_env s)
  = sanitize_line <$> match last (splitlines s) with
                      | Some [] => removelast (splitlines s)
                      | _ => splitlines s
                      end.
Proof.
  rewrite sanitize_env_map.
  rewrite splitlines_join
    by apply sanitize_lines_one_line, splitlines_one_line.
  rewrite fmap_last.
  destruct (last (splitlines s)) as [l|] eqn:Hlast; simpl; [|done].
  destruct (sanitize_line l) as [|c r] eqn:Hl.
  - apply sanitize_line_nil in Hl as ->.
    destruct (last_Some (splitlines s) []) as [[ls0 Hs] _]; [done|].
    rewrite Hs, fmap_app. simpl. by rewrite !removelast_last.
  - by destruct l.
Qed.

Lemma same_public_sanitize_line (l1 l2 : str) :
  same_public l1 l2 → sanitize_line l1 = sanitize_line l2.
Proof.
  intros [->|(key & v1 & v2 & -> & -> & Hkey & Hk & Hhash)]; [done|].
  assert (Hl : lstrip key ≠ []).
  { intros Hl. apply Hk. unfold strip. by rewrite Hl. }
  assert (Hline : ∀ v, sanitize_line (key ++ EQ :: v) = strip key ++ PLACEHOLDER).
  { intros v. unfold sanitize_line.
    rewrite contains_app_r, lstrip_app by done.
    replace (startswith (lstrip key ++ EQ :: v) [HASH]) with false.
    2: { destruct (lstrip key) as [|c r]; [done|]. simpl in *.
         by destruct (c =? HASH). }
    simpl. rewrite before_first_app by by apply not_in_Forall_eqb.
    by destruct (strip key). }
  by rewrite !Hline.
Qed.

(** X3.  The values never reach the output: two texts whose lines differ
    only in the values of lines that have a key and are no comments are
    sanitized to the same text. *)
Theorem sanitize_env_hides_values (t1 t2 : str) :
  Forall2 same_public (splitlines t1) (splitlines t2) →
  sanitize_env t1 = sanitize_env t2.
Proof.
  intros H. rewrite !sanitize_env_map. f_equal.
  induction H as [|l1 l2 ls1 ls2 Hl _ IH]; [done|].
  rewrite !fmap_cons, IH. f_equal. by apply same_public_sanitize_line.
Qed.

Lemma sanitize_env_hides_values_witness :
  sanitize_env (lit "API_KEY=secret123") = sanitize_env (lit "API_KEY=other").
Proof.
  apply sanitize_env_hides_values.
  constructor; [|constructor].
  right. exists (lit "API_KEY"), (lit "secret123"), (lit "other").
  split; [reflexivity|]. split; [reflexivity|].
  split; [compute_done|]. split; [discriminate|reflexivity].
Defined.

Lemma lstrip_length (s : str) : (length (lstrip s) ≤ length s)%nat.
Proof.
  induction s as [|c s IH]; simpl; [lia|].
  destruct (is_space c); simpl; lia.
Qed.

Lemma rstrip_length (s : str) : (length (rstrip s) ≤ length s)%nat.
Proof.
  induction s as [|c s IH]; simpl; [lia|].
  destruct (rstrip s); [destruct (is_space c)|]; simpl in *; lia.
Qed.

Lemma strip_length (s : str) : (length (strip s) ≤ length s)%nat.
Proof.
  unfold strip. pose proof (rstrip_length (lstrip s)).
  pose proof (lstrip_length s). lia.
Qed.

Lemma before_first_length c (s : str) :
  contains c s = true → (length (before_first c s) < length s)%nat.
Proof.
  intros [post Hp]%before_first_split.
  rewrite Hp at 2. rewrite length_app. simpl. lia.
Qed.

Lemma sanitize_line_length (l : str) :
  (length (sanitize_line l) ≤ 7 * length l)%nat.
Proof.
  unfold sanitize_line.
  destruct (contains EQ l) eqn:Hc; simpl; [|lia].
  destruct (negb _); [|lia].
  pose proof (before_first_length EQ l Hc) as Hlt.
  pose proof (strip_length (before_first EQ l)) as Hk.
  destruct (strip (before_first EQ l)) as [|c r]; [lia|].
  rewrite length_app.
  change (length PLACEHOLDER) with 13%nat. simpl in *. lia.
Qed.

Lemma join_fmap_length (f : str → str) k (ls : list str) :
  (1 ≤ k)%nat → (∀ l, length (f l) ≤ k * length l)%nat →
  (length (join LF (f <$> ls)) ≤ k * length (join LF ls))%nat.
Proof.
  intros Hk Hf. induction ls as [|l ls IH]; [simpl; lia|].
  destruct ls as [|l2 ls]; [apply Hf|].
  change (join LF (f <$> l :: l2 :: ls))
    with (f l ++ LF :: join LF (f <$> l2 :: ls)).
  change (join LF (l :: l2 :: ls)) with (l ++ LF :: join LF (l2 :: ls)).
  rewrite !length_app, !length_cons.
  specialize (Hf l). specialize (IH).
  rewrite Nat.mul_add_distr_l, Nat.mul_succ_r. lia.
Qed.

(** X4.  Sanitizing lengthens a text at most seven times; the bound is
    met by the text [A=]. *)
Theorem sanitize_env_length (s : str) :
  (length (sanitize_env s) ≤ 7 * length s)%nat ∧
  length (sanitize_env (lit "A=")) = (7 * length (lit "A="))%nat.
Proof.
  split; [|reflexivity].
  rewrite sanitize_env_map.
  pose proof (join_fmap_length sanitize_line 7 (splitlines s)
                ltac:(lia) sanitize_line_length).
  pose proof (join_splitlines_length s). lia.
Qed.

(** ** [head_lines]: lines, idempotence, length *)

Lemma splitlines_TRUNCATED_tail :
  splitlines (LF :: MARKER_LINE ++ [LF]) = [[]; MARKER_LINE].
Proof. reflexivity. Qed.

(** The lines of a truncated text, for a cap of at least one line. *)
Lemma head_lines_cut_lines (text : str) (n : nat) :
  (1 ≤ n)%nat → (n < length (splitlines text))%nat →
  splitlines (head_lines text (Z.of_nat n))
  = take n (splitlines text) ++ [[]; MARKER_LINE].
Proof.
  intros Hn Hlen. rewrite head_lines_over by done.
  change TRUNCATED with (LF :: LF :: MARKER_LINE ++ [LF]).
  rewrite splitlines_join_app.
  - by rewrite splitlines_TRUNCATED_tail.
  - apply Forall_take, splitlines_one_line.
  - intros Hnil. apply (f_equal length) in Hnil.
    rewrite length_take in Hnil. simpl in Hnil. lia.
Qed.

Lemma slice_to_take {A} (n : Z) (l : list A) : ∃ k, slice_to n l = take k l.
Proof. unfold slice_to. case_bool_decide; by eexists. Qed.

Lemma head_lines_nat_idempotent (text : str) (n : nat) :
  head_lines (head_lines text (Z.of_nat n)) (Z.of_nat n)
  = head_lines text (Z.of_nat n).
Proof.
  destruct (decide (length (splitlines text) ≤ n)%nat) as [Hle|Hgt].
  { by rewrite !head_lines_within by (by rewrite ?head_lines_within). }
  destruct n as [|n].
  - rewrite (head_lines_over text 0) by lia. reflexivity.
  - assert (Hcut := head_lines_cut_lines text (S n) ltac:(lia) ltac:(lia)).
    rewrite (head_lines_over (head_lines text (Z.of_nat (S n)))).
    + rewrite Hcut. rewrite take_app_length'; [|rewrite length_take; lia].
      by rewrite head_lines_over by lia.
    + rewrite Hcut, length_app, length_take. cbn [length]. lia.
Qed.

(** X5.  With a cap [n] of at least one line, a text of more lines is cut
    to its first [n] lines followed by an empty line and the marker line,
    and no result has more than [n + 2] lines. *)
Theorem head_lines_lines (text : str) (n : Z) :
  (1 ≤ n)%Z →
  ((Z.to_nat n < length (splitlines text))%nat →
   splitlines (head_lines text n)
   = take (Z.to_nat n) (splitlines text) ++ [[]; MARKER_LINE]) ∧
  (length (splitlines (head_lines text n)) ≤ Z.to_nat n + 2)%nat.
Proof.
  intros Hn.
  assert (∃ m, n = Z.of_nat m ∧ (1 ≤ m)%nat) as (m & -> & Hm)
    by (exists (Z.to_nat n); lia).
  rewrite Nat2Z.id.
  split; [by apply head_lines_cut_lines|].
  destruct (decide (length (splitlines text) ≤ m)%nat) as [Hle|Hgt].
  - rewrite head_lines_within by done. lia.
  - rewrite head_lines_cut_lines by lia.
    rewrite length_app, length_take. cbn [length]. lia.
Qed.

Lemma head_lines_lines_witness :
  splitlines (head_lines (lit "a" ++ [LF] ++ lit "b" ++ [LF] ++ lit "c") 2%Z)
  = take 2 (splitlines (lit "a" ++ [LF] ++ lit "b" ++ [LF] ++ lit "c"))
    ++ [[]; MARKER_LINE].
Proof.
  apply (head_lines_lines (lit "a" ++ [LF] ++ lit "b" ++ [LF] ++ lit "c") 2%Z).
  - lia.
  - vm_compute. lia.
Defined.

(** X6.  For a cap [n] that is not negative [head_lines] is idempotent:
    cutting an already cut text to the same cap changes nothing, although
    the cut text has more lines than the cap.  The cap is an [int] in the
    source, and for a negative one this fails: at [n = -1] the three lines
    [a], [b], [c] are cut to [a], [b] and the marker, and cutting that
    again drops the marker line and appends the marker anew. *)
Theorem head_lines_idempotent :
  (∀ (text : str) (n : Z), (0 ≤ n)%Z →
     head_lines (head_lines text n) n = head_lines text n) ∧
  head_lines (head_lines (lit "a" ++ [LF] ++ lit "b" ++ [LF] ++ lit "c") (-1)%Z)
             (-1)%Z
  ≠ head_lines (lit "a" ++ [LF] ++ lit "b" ++ [LF] ++ lit "c") (-1)%Z.
Proof.
  split.
  - intros text n Hn. rewrite <- (Z2Nat.id n) by lia.
    apply head_lines_nat_idempotent.
  - vm_compute. discriminate.
Qed.

Lemma head_lines_idempotent_witness :
  head_lines (head_lines (lit "a" ++ [LF] ++ lit "b" ++ [LF] ++ lit "c") 2%Z)
             2%Z
  = head_lines (lit "a" ++ [LF] ++ lit "b" ++ [LF] ++ lit "c") 2%Z.
Proof.
  apply (proj1 head_lines_idempotent
           (lit "a" ++ [LF] ++ lit "b" ++ [LF] ++ lit "c") 2%Z).
  lia.
Defined.

Lemma head_lines_nat_length (text : str) (n : Z) :
  (length (head_lines text n) ≤ length text + 20)%nat.
Proof.
  unfold head_lines. case_bool_decide; [lia|].
  rewrite length_app. change (length TRUNCATED) with 20%nat.
  destruct (slice_to_take n (splitlines text)) as [k ->].
  pose proof (join_take_length (splitlines text) k).
  pose proof (join_splitlines_length text). lia.
Qed.

(** X7.  A cut text is never longer than the text plus the marker, which
    has 20 characters; this holds for every [int] cap. *)
Theorem head_lines_length (text : str) (n : Z) :
  (length (head_lines text n) ≤ length text + 20)%nat.
Proof. apply head_lines_nat_length. Qed.

(** ** [read_bytes_as_text] and [read_with_rules]: lengths *)

Lemma read_bytes_as_text_nat_length fs p max_bytes :
  (length (read_bytes_as_text fs p max_bytes) ≤ Z.to_nat max_bytes)%nat.
Proof.
  unfold read_bytes_as_text. destruct (open_rb fs p) as [|bs]; simpl; [lia|].
  unfold decode_utf8_ignore.
  pose proof (decode_from_length (take (Z.to_nat max_bytes) bs) Start) as H.
  rewrite length_take in H. lia.
Qed.

(** X8.  The text read from a file has at most [max_bytes] characters,
    whatever the file holds. *)
Theorem read_bytes_as_text_length fs p max_bytes :
  (0 ≤ max_bytes)%Z →
  (Z.of_nat (length (read_bytes_as_text fs p max_bytes)) ≤ max_bytes)%Z.
Proof.
  intros Hm. pose proof (read_bytes_as_text_nat_length fs p max_bytes). lia.
Qed.

Lemma read_bytes_as_text_length_witness :
  (Z.of_nat (length (read_bytes_as_text fs_one_line [lit "a.py"] 2)) ≤ 2)%Z.
Proof. apply (read_bytes_as_text_length fs_one_line [lit "a.py"] 2). lia. Defined.

Lemma read_with_rules_nat_length (LOCK_BASENAMES : gset (list N)) fs p :
  (length (read_with_rules LOCK_BASENAMES fs p)
   ≤ 7 * Z.to_nat MAX_FILE_BYTES + 20)%nat ∧
  (startswith (path_name p) ENV_PREFIX = false →
   (length (read_with_rules LOCK_BASENAMES fs p)
    ≤ Z.to_nat MAX_FILE_BYTES + 20)%nat).
Proof.
  pose proof (read_bytes_as_text_nat_length fs p MAX_FILE_BYTES) as Hraw.
  set (raw := read_bytes_as_text fs p MAX_FILE_BYTES) in *.
  pose proof head_lines_nat_length as Hhead.
  assert (Hsan : (length (sanitize_env raw) ≤ 7 * length raw)%nat).
  { rewrite sanitize_env_map.
    pose proof (join_fmap_length sanitize_line 7 (splitlines raw)
                  ltac:(lia) sanitize_line_length).
    pose proof (join_splitlines_length raw). lia. }
  unfold read_with_rules. fold raw.
  split.
  - destruct (startswith _ _);
      destruct (is_lock_like _ _); [| destruct (str_in _ _) | | destruct (str_in _ _)];
      try match goal with
          | |- context [head_lines ?t ?n] => pose proof (Hhead t n)
          end; lia.
  - intros ->.
    destruct (is_lock_like _ _); [| destruct (str_in _ _)];
      try match goal with
          | |- context [head_lines ?t ?n] => pose proof (Hhead t n)
          end; lia.
Qed.

(** ** Encoding and decoding *)

Lemma octet_to_N n : n < 256 → Byte.to_N (octet n) = n.
Proof.
  intros Hn. unfold octet.
  destruct (Byte.of_N n) as [b|] eqn:Hb; simpl.
  - by apply Byte.to_of_N.
  - apply Byte.of_N_None_iff in Hb. lia.
Qed.

Ltac Zify.zify_post_hook ::= Z.to_euclidean_division_equations.

Lemma encode_arith_2 c :
  0x80 ≤ c → c < 0x800 →
  0xC2 ≤ 0xC0 + c / 64 ∧ 0xC0 + c / 64 < 0xE0 ∧
  0x80 ≤ 0x80 + c mod 64 ∧ 0x80 + c mod 64 ≤ 0xBF ∧
  (0xC0 + c / 64 - 0xC0) * 64 + (0x80 + c mod 64 - 0x80) = c.
Proof. intros. lia. Qed.

Lemma encode_arith_3 c :
  0x800 ≤ c → c < 0x10000 → ¬ (0xD800 ≤ c ∧ c ≤ 0xDFFF) →
  0xE0 ≤ 0xE0 + c / 4096 ∧ 0xE0 + c / 4096 < 0xF0 ∧
  (0xE0 + c / 4096 = 0xE0 → 0xA0 ≤ 0x80 + (c / 64) mod 64) ∧
  (0xE0 + c / 4096 = 0xED → 0x80 + (c / 64) mod 64 ≤ 0x9F) ∧
  0x80 ≤ 0x80 + (c / 64) mod 64 ∧ 0x80 + (c / 64) mod 64 ≤ 0xBF ∧
  0x80 ≤ 0x80 + c mod 64 ∧ 0x80 + c mod 64 ≤ 0xBF ∧
  ((0xE0 + c / 4096 - 0xE0) * 64 + (0x80 + (c / 64) mod 64 - 0x80)) * 64
  + (0x80 + c mod 64 - 0x80) = c.
Proof. intros. lia. Qed.

Lemma encode_arith_4 c :
  0x10000 ≤ c → c < 0x110000 →
  0xF0 ≤ 0xF0 + c / 262144 ∧ 0xF0 + c / 262144 < 0xF5 ∧
  (0xF0 + c / 262144 = 0xF0 → 0x90 ≤ 0x80 + (c / 4096) mod 64) ∧
  (0xF0 + c / 262144 = 0xF4 → 0x80 + (c / 4096) mod 64 ≤ 0x8F) ∧
  0x80 ≤ 0x80 + (c / 4096) mod 64 ∧ 0x80 + (c / 4096) mod 64 ≤ 0xBF ∧
  0x80 ≤ 0x80 + (c / 64) mod 64 ∧ 0x80 + (c / 64) mod 64 ≤ 0xBF ∧
  0x80 ≤ 0x80 + c mod 64 ∧ 0x80 + c mod 64 ≤ 0xBF ∧
  (((0xF0 + c / 262144 - 0xF0) * 64 + (0x80 + (c / 4096) mod 64 - 0x80)) * 64
   + (0x80 + (c / 64) mod 64 - 0x80)) * 64
  + (0x80 + c mod 64 - 0x80) = c.
Proof. intros. lia. Qed.

Ltac Zify.zify_post_hook ::= idtac.

Ltac destruct_ltb :=
  repeat match goal with
         | |- context [?a <? ?b] => destruct (N.ltb_spec a b); try lia
         end.

Lemma decode_from_Start b (bs : list Byte.byte) :
  decode_from Start (b :: bs)
  = (start_byte (Byte.to_N b)).1 ++ decode_from (start_byte (Byte.to_N b)).2 bs.
Proof. simpl. by destruct (start_byte (Byte.to_N b)). Qed.

Lemma decode_from_Pending n acc lo hi b (bs : list Byte.byte) :
  lo ≤ Byte.to_N b → Byte.to_N b ≤ hi →
  decode_from (Pending (S n) acc lo hi) (b :: bs)
  = match n with
    | O => (acc * 64 + (Byte.to_N b - 0x80)) :: decode_from Start bs
    | S _ => decode_from (Pending n (acc * 64 + (Byte.to_N b - 0x80)) 0x80 0xBF) bs
    end.
Proof.
  intros Hlo Hhi. simpl.
  apply N.leb_le in Hlo, Hhi. by rewrite Hlo, Hhi.
Qed.

Lemma start_byte_lead2 b :
  0xC2 ≤ b → b < 0xE0 → start_byte b = ([], Pending 1 (b - 0xC0) 0x80 0xBF).
Proof.
  intros. unfold start_byte.
  destruct_ltb. done.
Qed.

Lemma start_byte_lead3 b :
  0xE0 ≤ b → b < 0xF0 →
  start_byte b = ([], Pending 2 (b - 0xE0) (if b =? 0xE0 then 0xA0 else 0x80)
                               (if b =? 0xED then 0x9F else 0xBF)).
Proof.
  intros. unfold start_byte.
  destruct_ltb. done.
Qed.

Lemma start_byte_lead4 b :
  0xF0 ≤ b → b < 0xF5 →
  start_byte b = ([], Pending 3 (b - 0xF0) (if b =? 0xF0 then 0x90 else 0x80)
                               (if b =? 0xF4 then 0x8F else 0xBF)).
Proof.
  intros. unfold start_byte.
  destruct_ltb. done.
Qed.

Ltac continuation_step :=
  rewrite decode_from_Pending
    by (rewrite octet_to_N by lia; first [assumption | lia]);
  rewrite octet_to_N by lia.

(** The octets of a scalar value decode to it, whatever follows. *)
Lemma decode_encode_point c (rest : list Byte.byte) :
  is_scalar c →
  ∃ bs, encode_point c = Some bs ∧ (1 ≤ length bs ≤ 4)%nat ∧
        decode_from Start (bs ++ rest) = c :: decode_from Start rest.
Proof.
  intros [Hmax Hsur]. unfold encode_point.
  destruct (N.ltb_spec c 0x80) as [H1|H1].
  { eexists. split; [done|]. split; [simpl; lia|].
    simpl app. rewrite decode_from_ascii; rewrite octet_to_N; try lia. done. }
  destruct (N.ltb_spec c 0x800) as [H2|H2].
  { destruct (encode_arith_2 c H1 H2) as (? & ? & ? & ? & Hc).
    eexists. split; [done|]. split; [simpl; lia|]. simpl app.
    rewrite decode_from_Start, octet_to_N, start_byte_lead2 by lia.
    cbn [fst snd app]. continuation_step. by rewrite Hc. }
  destruct (N.ltb_spec c 0x10000) as [H3|H3].
  { destruct (encode_arith_3 c H2 H3 Hsur)
      as (? & ? & Hlo & Hhi & ? & ? & ? & ? & Hc).
    destruct ((0xD800 <=? c) && (c <=? 0xDFFF)) eqn:Hs.
    { apply andb_true_iff in Hs as [?%N.leb_le ?%N.leb_le]. lia. }
    assert (Hlo' : (if 0xE0 + c / 4096 =? 0xE0 then 0xA0 else 0x80)
                   ≤ 0x80 + (c / 64) mod 64).
    { destruct (N.eqb_spec (0xE0 + c / 4096) 0xE0); [by apply Hlo|lia]. }
    assert (Hhi' : 0x80 + (c / 64) mod 64
                   ≤ (if 0xE0 + c / 4096 =? 0xED then 0x9F else 0xBF)).
    { destruct (N.eqb_spec (0xE0 + c / 4096) 0xED); [by apply Hhi|lia]. }
    eexists. split; [done|]. split; [simpl; lia|]. simpl app.
    rewrite decode_from_Start, octet_to_N, start_byte_lead3 by lia.
    cbn [fst snd app]. do 2 continuation_step. by rewrite Hc. }
  destruct (N.ltb_spec c 0x110000) as [H4|H4]; [|lia].
  destruct (encode_arith_4 c H3 H4)
    as (? & ? & Hlo & Hhi & ? & ? & ? & ? & ? & ? & Hc).
  assert (Hlo' : (if 0xF0 + c / 262144 =? 0xF0 then 0x90 else 0x80)
                 ≤ 0x80 + (c / 4096) mod 64).
  { destruct (N.eqb_spec (0xF0 + c / 262144) 0xF0); [by apply Hlo|lia]. }
  assert (Hhi' : 0x80 + (c / 4096) mod 64
                 ≤ (if 0xF0 + c / 262144 =? 0xF4 then 0x8F else 0xBF)).
  { destruct (N.eqb_spec (0xF0 + c / 262144) 0xF4); [by apply Hhi|lia]. }
  eexists. split; [done|]. split; [simpl; lia|]. simpl app.
  rewrite decode_from_Start, octet_to_N, start_byte_lead4 by lia.
  cbn [fst snd app]. do 3 continuation_step. by rewrite Hc.
Qed.

Lemma decode_encode (s : str) :
  Forall is_scalar s →
  ∃ bs, encode_utf8 s = Some bs ∧ decode_utf8_ignore bs = s ∧
        (length s ≤ length bs ≤ 4 * length s)%nat.
Proof.
  unfold decode_utf8_ignore.
  induction 1 as [|c s Hc Hs (bs & Hbs & Hdec & Hlen)]; simpl.
  - by exists [].
  - destruct (decode_encode_point c bs Hc) as (cs & Hcs & Hl & Hd).
    rewrite Hcs, Hbs. exists (cs ++ bs). split; [done|].
    split; [by rewrite Hd, Hdec|]. rewrite length_app. lia.
Qed.

(** X9.  Encoding then decoding is the identity on texts of Unicode scalar
    values: encoding succeeds, decoding the octets gives the text back,
    and the octets number between one and four per character. *)
Theorem decode_encode_roundtrip (s : str) :
  Forall is_scalar s →
  ∃ bs, encode_utf8 s = Some bs ∧ decode_utf8_ignore bs = s ∧
        (length s ≤ length bs ≤ 4 * length s)%nat.
Proof.
  intros Hs. destruct (decode_encode s Hs) as (bs & Henc & Hdec & Hlen).
  exists bs. split; [done|]. split; [done|lia].
Qed.

Lemma decode_encode_roundtrip_witness :
  ∃ bs, encode_utf8 text_mixed = Some bs ∧ decode_utf8_ignore bs = text_mixed ∧
        (length text_mixed ≤ length bs ≤ 4 * length text_mixed)%nat.
Proof.
  apply (decode_encode_roundtrip text_mixed).
  repeat constructor; unfold is_scalar; lia.
Defined.

(** A surrogate is the one thing a [str] can hold that does not encode. *)
Lemma encode_utf8_None (s : str) :
  Forall (λ c, c < 0x110000) s →
  encode_utf8 s = None ↔ Exists (λ c, 0xD800 ≤ c ∧ c ≤ 0xDFFF) s.
Proof.
  induction 1 as [|c s Hc Hs IH]; simpl.
  - split; [done|by intros ?%Exists_nil].
  - rewrite Exists_cons.
    destruct (decide (0xD800 ≤ c ∧ c ≤ 0xDFFF)) as [Hsur|Hsur].
    + split; [by left|]. intros _. unfold encode_point.
      destruct Hsur as [Hs1%N.leb_le Hs2%N.leb_le].
      rewrite Hs1, Hs2. apply N.leb_le in Hs1, Hs2.
      destruct_ltb; done.
    + destruct (decode_encode_point c [] (conj Hc Hsur)) as (cs & -> & _).
      destruct (encode_utf8 s) as [bs|].
      * split; [done|]. intros [?|Hex]; [done|]. by apply IH in Hex.
      * split; [|done]. intros _. right. by apply IH.
Qed.

(** ** The collector: what is collected and what is not *)

Lemma is_scalar_LF : is_scalar LF.
Proof. unfold is_scalar, LF. lia. Qed.

Lemma is_scalar_ascii (s : string) : Forall is_scalar (lit s).
Proof.
  unfold lit. apply Forall_fmap, Forall_forall. intros a _. simpl.
  unfold is_scalar. pose proof (N_ascii_bounded a). lia.
Qed.

(** The content rules keep a text within the Unicode scalar values. *)
Lemma read_with_rules_scalar (LOCK_BASENAMES : gset (list N)) fs p :
  Forall is_scalar (read_with_rules LOCK_BASENAMES fs p).
Proof.
  assert (HP : Forall is_scalar PLACEHOLDER) by apply (is_scalar_ascii "=<YOUR_VALUE>").
  assert (HT : Forall is_scalar TRUNCATED).
  { change TRUNCATED with ([LF; LF] ++ lit "# ...truncated..." ++ [LF]).
    repeat (apply Forall_app; split); try apply is_scalar_ascii;
      repeat constructor; apply is_scalar_LF. }
  assert (Hraw : Forall is_scalar (read_bytes_as_text fs p MAX_FILE_BYTES)).
  { unfold read_bytes_as_text. destruct (open_rb fs p); [constructor|].
    apply decode_utf8_ignore_scalar. }
  unfold read_with_rules.
  set (raw := read_bytes_as_text fs p MAX_FILE_BYTES) in *.
  assert (Hpre : Forall is_scalar
                   (if startswith (path_name p) ENV_PREFIX
                    then sanitize_env raw else raw)).
  { destruct (startswith _ _); [|done].
    apply sanitize_env_Forall; [apply is_scalar_LF|done..]. }
  destruct (is_lock_like _ _);
    [by apply head_lines_Forall; [apply is_scalar_LF|..]|].
  destruct (str_in _ _); [|done].
  by apply head_lines_Forall; [apply is_scalar_LF|..].
Qed.

Lemma first_by_source_elem seen0 cs d :
  d ∈ first_by_source seen0 cs → d ∈ cs.
Proof.
  revert seen0. induction cs as [|c cs IH]; intros seen0; simpl; [done|].
  case_bool_decide.
  - intros Hd%IH. by right.
  - intros [->|Hd%IH]%elem_of_cons; [by left|by right].
Qed.

Lemma first_by_source_covers seen0 cs c :
  c ∈ cs →
  source c ∈ seen0 ∨ source c ∈ source <$> first_by_source seen0 cs.
Proof.
  revert seen0. induction cs as [|c0 cs IH]; intros seen0; [by intros ?%elem_of_nil|].
  simpl. intros [->|Hc]%elem_of_cons.
  - case_bool_decide; [by left|]. right. rewrite fmap_cons. by left.
  - case_bool_decide.
    + by apply IH.
    + destruct (IH ({[source c0]} ∪ seen0) Hc) as [Hs|Hs].
      * apply elem_of_union in Hs as [->%elem_of_singleton|Hs]; [|by left].
        right. rewrite fmap_cons. by left.
      * right. rewrite fmap_cons. by right.
Qed.

Section collected.

Context (INCLUDE_EXTS KEY_FILENAMES LOCK_BASENAMES SKIP_DIRS : gset (list N)).
Context (fs : filesys) (include_readme : bool).

Lemma candidates_elem vs d :
  d ∈ candidates INCLUDE_EXTS KEY_FILENAMES LOCK_BASENAMES fs include_readme vs
  ↔ ∃ dp fn, (dp, fn) ∈ vs ∧
       eligible INCLUDE_EXTS KEY_FILENAMES fs include_readme (dp ++ [fn]) = true ∧
       d = {| source := rel_of (dp ++ [fn]);
              content := read_with_rules LOCK_BASENAMES fs (dp ++ [fn]) |}.
Proof.
  unfold candidates. rewrite list_elem_of_omap. split.
  - intros ([dp fn] & Hin & Hsome). simpl in Hsome.
    destruct (eligible _ _ _ _ _) eqn:He; [|done].
    injection Hsome as <-. by exists dp, fn.
  - intros (dp & fn & Hin & He & ->). exists (dp, fn). split; [done|].
    simpl. by rewrite He.
Qed.

(** Every returned document is the candidate of a visit of the walk. *)
Lemma collect_elem root d :
  d ∈ collect INCLUDE_EXTS KEY_FILENAMES LOCK_BASENAMES SKIP_DIRS fs
        include_readme root →
  ∃ dp fn, (dp, fn) ∈ visit_order SKIP_DIRS [] root ∧
     eligible INCLUDE_EXTS KEY_FILENAMES fs include_readme (dp ++ [fn]) = true ∧
     d = {| source := rel_of (dp ++ [fn]);
            content := read_with_rules LOCK_BASENAMES fs (dp ++ [fn]) |}.
Proof.
  intros Hd. apply candidates_elem, (first_by_source_elem ∅).
  destruct (collect_first INCLUDE_EXTS KEY_FILENAMES LOCK_BASENAMES SKIP_DIRS
              fs include_readme root) as [Heq|[[k Hk] _]].
  - by rewrite <- Heq.
  - rewrite Hk. apply elem_of_app. by left.
Qed.

(** The walk never goes below a directory named in [SKIP_DIRS]. *)
Lemma visit_order_unpruned t : ∀ dp dp' fn,
  (dp', fn) ∈ visit_order SKIP_DIRS dp t →
  ∃ below, dp' = dp ++ below ∧ Forall (λ d, d ∉ SKIP_DIRS) below.
Proof.
  induction t as [ds fns IH] using listing_ind. intros dp dp' fn. simpl.
  intros [Hin|Hin]%elem_of_app.
  - apply list_elem_of_fmap in Hin as (fn' & [= -> ->] & _).
    exists []. by rewrite app_nil_r.
  - induction IH as [|[d sub] rest Hsub _ IHrest]; simpl in Hin;
      [by apply elem_of_nil in Hin|].
    apply elem_of_app in Hin as [Hin|Hin]; [|by apply IHrest].
    case_bool_decide as Hskip; [by apply elem_of_nil in Hin|].
    destruct sub as [t'|]; [|by apply elem_of_nil in Hin].
    destruct (Hsub t' eq_refl _ _ _ Hin) as (below & -> & Hbelow).
    exists (d :: below). split; [by rewrite <- app_assoc|]. by constructor.
Qed.

End collected.

(** X10.  Every returned document comes from a file of the tree that the
    walk of [root] reached: the file is among the visits of the walk, it
    is below no directory named in [SKIP_DIRS], it is a regular file that
    [should_include] accepts, its source is its normalized relative path
    and its content is what [read_with_rules] gives for it. *)
Theorem collect_provenance
    (INCLUDE_EXTS KEY_FILENAMES LOCK_BASENAMES SKIP_DIRS : gset (list N))
    (fs : filesys) (include_readme : bool) (root : listing) (d : Document) :
  d ∈ collect INCLUDE_EXTS KEY_FILENAMES LOCK_BASENAMES SKIP_DIRS fs
        include_readme root →
  ∃ dp fn,
    (dp, fn) ∈ visit_order SKIP_DIRS [] root ∧
    Forall (λ x, x ∉ SKIP_DIRS) dp ∧
    is_file fs (dp ++ [fn]) = true ∧
    should_include INCLUDE_EXTS KEY_FILENAMES (dp ++ [fn]) = true ∧
    source d = rel_of (dp ++ [fn]) ∧
    content d = read_with_rules LOCK_BASENAMES fs (dp ++ [fn]).
Proof.
  intros (dp & fn & Hin & He & ->)%collect_elem.
  destruct (visit_order_unpruned SKIP_DIRS root [] dp fn Hin)
    as (below & -> & Hbelow).
  exists below, fn. unfold eligible in He.
  apply andb_true_iff in He as [[Hfile _]%andb_true_iff Hinc].
  by repeat split.
Qed.

Lemma collect_provenance_witness :
  ∃ dp fn,
    (dp, fn) ∈ visit_order EX_SKIP_DIRS [] tree_spec_example ∧
    Forall (λ x, x ∉ EX_SKIP_DIRS) dp ∧
    is_file fs_spec_example (dp ++ [fn]) = true ∧
    should_include EX_INCLUDE_EXTS EX_KEY_FILENAMES (dp ++ [fn]) = true ∧
    source {| source := lit "app.py"; content := lit "print(1)" |}
    = rel_of (dp ++ [fn]) ∧
    content {| source := lit "app.py"; content := lit "print(1)" |}
    = read_with_rules EX_LOCK_BASENAMES fs_spec_example (dp ++ [fn]).
Proof.
  apply (collect_provenance EX_INCLUDE_EXTS EX_KEY_FILENAMES EX_LOCK_BASENAMES
           EX_SKIP_DIRS fs_spec_example false tree_spec_example).
  apply (bool_decide_unpack _). vm_compute. reflexivity.
Defined.

(** X11.  Without [include_readme] no README is collected: no returned
    source has a last component that is, in lower case, one of [readme],
    [readme.md], [readme.rst], [readme.txt]. *)
Theorem collect_no_readme
    (INCLUDE_EXTS KEY_FILENAMES LOCK_BASENAMES SKIP_DIRS : gset (list N))
    (fs : filesys) (root : listing) (d : Document) :
  d ∈ collect INCLUDE_EXTS KEY_FILENAMES LOCK_BASENAMES SKIP_DIRS fs false root →
  lower (rel_name (source d)) ∉ README_NAMES.
Proof.
  intros (dp & fn & Hin & He & ->)%collect_elem. simpl.
  unfold eligible in He.
  apply andb_true_iff in He as [[_ Hreadme]%andb_true_iff _].
  simpl in Hreadme. apply negb_true_iff in Hreadme.
  by apply bool_decide_eq_false in Hreadme.
Qed.

Lemma collect_no_readme_witness :
  lower (rel_name (source {| source := lit "app.py"; content := lit "print(1)" |}))
  ∉ README_NAMES.
Proof.
  apply (collect_no_readme EX_INCLUDE_EXTS EX_KEY_FILENAMES EX_LOCK_BASENAMES
           EX_SKIP_DIRS fs_spec_example tree_spec_example).
  apply (bool_decide_unpack _). vm_compute. reflexivity.
Defined.

(** X12.  Below the budget nothing eligible is left out: when the
    returned contents sum to less than [MAX_TOTAL_BYTES], the normalized
    path of every regular, included file the walk visits (README names
    apart, unless asked for) is the source of a returned document. *)
Theorem collect_complete
    (INCLUDE_EXTS KEY_FILENAMES LOCK_BASENAMES SKIP_DIRS : gset (list N))
    (fs : filesys) (include_readme : bool) (root : listing)
    (dp : relpath) (fn : list N) :
  (sum_len (collect INCLUDE_EXTS KEY_FILENAMES LOCK_BASENAMES SKIP_DIRS fs
              include_readme root) < MAX_TOTAL_BYTES)%Z →
  (dp, fn) ∈ visit_order SKIP_DIRS [] root →
  eligible INCLUDE_EXTS KEY_FILENAMES fs include_readme (dp ++ [fn]) = true →
  rel_of (dp ++ [fn])
  ∈ source <$> collect INCLUDE_EXTS KEY_FILENAMES LOCK_BASENAMES SKIP_DIRS fs
                 include_readme root.
Proof.
  intros Hsum Hin He.
  destruct (collect_first INCLUDE_EXTS KEY_FILENAMES LOCK_BASENAMES SKIP_DIRS
              fs include_readme root) as [Heq|[_ Hge]]; [|lia].
  rewrite Heq.
  set (c := {| source := rel_of (dp ++ [fn]);
               content := read_with_rules LOCK_BASENAMES fs (dp ++ [fn]) |}).
  assert (Hc : c ∈ candidates INCLUDE_EXTS KEY_FILENAMES LOCK_BASENAMES fs
                     include_readme (visit_order SKIP_DIRS [] root)).
  { apply candidates_elem. by exists dp, fn. }
  destruct (first_by_source_covers ∅ _ c Hc) as [Hs|Hs]; [set_solver|done].
Qed.

Lemma collect_complete_witness :
  rel_of ([] ++ [lit "app.py"])
  ∈ source <$> collect EX_INCLUDE_EXTS EX_KEY_FILENAMES EX_LOCK_BASENAMES
                 EX_SKIP_DIRS fs_spec_example false tree_spec_example.
Proof.
  apply (collect_complete EX_INCLUDE_EXTS EX_KEY_FILENAMES EX_LOCK_BASENAMES
           EX_SKIP_DIRS fs_spec_example false tree_spec_example []
           (lit "app.py")).
  - vm_compute. reflexivity.
  - apply (bool_decide_unpack _). vm_compute. reflexivity.
  - vm_compute. reflexivity.
Defined.

Lemma walk_subdirs_skip (SKIP_DIRS : gset (list N))
    (w : relpath → listing → cstate → outcome) dp pre d sub post st :
  d ∈ SKIP_DIRS →
  walk_subdirs SKIP_DIRS w dp (pre ++ (d, sub) :: post) st
  = walk_subdirs SKIP_DIRS w dp (pre ++ post) st.
Proof.
  intros Hd. revert st. induction pre as [|[d' sub'] pre IH]; intros st; simpl.
  - by rewrite bool_decide_eq_true_2.
  - destruct (bool_decide (d' ∈ SKIP_DIRS)); [apply IH|].
    destruct sub' as [t'|]; [|apply IH].
    destruct (w (dp ++ [d']) t' st); [apply IH|done].
Qed.

(** X13.  A directory named in [SKIP_DIRS] is never entered: whatever it
    holds, the walk of its parent, and so the collection, is the same as
    if the directory were not there. *)
Theorem walk_prunes
    (INCLUDE_EXTS KEY_FILENAMES LOCK_BASENAMES SKIP_DIRS : gset (list N))
    (fs : filesys) (include_readme : bool)
    (pre post : list (list N * option listing)) (d : list N)
    (sub : option listing) (fns : list (list N)) :
  d ∈ SKIP_DIRS →
  (∀ dp st,
     walk INCLUDE_EXTS KEY_FILENAMES LOCK_BASENAMES SKIP_DIRS fs include_readme
       dp (Listing (pre ++ (d, sub) :: post) fns) st
     = walk INCLUDE_EXTS KEY_FILENAMES LOCK_BASENAMES SKIP_DIRS fs
         include_readme dp (Listing (pre ++ post) fns) st) ∧
  collect INCLUDE_EXTS KEY_FILENAMES LOCK_BASENAMES SKIP_DIRS fs include_readme
    (Listing (pre ++ (d, sub) :: post) fns)
  = collect INCLUDE_EXTS KEY_FILENAMES LOCK_BASENAMES SKIP_DIRS fs
      include_readme (Listing (pre ++ post) fns).
Proof.
  intros Hd.
  assert (Hw : ∀ dp st,
     walk INCLUDE_EXTS KEY_FILENAMES LOCK_BASENAMES SKIP_DIRS fs include_readme
       dp (Listing (pre ++ (d, sub) :: post) fns) st
     = walk INCLUDE_EXTS KEY_FILENAMES LOCK_BASENAMES SKIP_DIRS fs
         include_readme dp (Listing (pre ++ post) fns) st).
  { intros dp st. simpl.
    destruct (files_loop _ _ _ _ _ dp (sorted fns) st); [|done].
    by apply walk_subdirs_skip. }
  split; [exact Hw|]. unfold collect. by rewrite Hw.
Qed.

Lemma walk_prunes_witness :
  collect EX_INCLUDE_EXTS EX_KEY_FILENAMES EX_LOCK_BASENAMES EX_SKIP_DIRS
    fs_spec_example false
    (Listing ([] ++ (lit "node_modules", Some (Listing [] [lit "x.js"])) :: [])
       [lit "package-lock.json"; lit "app.py"; lit ".env"])
  = collect EX_INCLUDE_EXTS EX_KEY_FILENAMES EX_LOCK_BASENAMES EX_SKIP_DIRS
      fs_spec_example false
      (Listing ([] ++ []) [lit "package-lock.json"; lit "app.py"; lit ".env"]).
Proof.
  apply (walk_prunes EX_INCLUDE_EXTS EX_KEY_FILENAMES EX_LOCK_BASENAMES
           EX_SKIP_DIRS fs_spec_example false [] []).
  apply (bool_decide_unpack _). vm_compute. reflexivity.
Defined.

(** X14.  The stored content of a file has at most
    [7 * MAX_FILE_BYTES + 20] characters, and at most
    [MAX_FILE_BYTES + 20] when its name does not start with [.env]. *)
Theorem read_with_rules_length
    (LOCK_BASENAMES : gset (list N)) (fs : filesys) (p : relpath) :
  (Z.of_nat (length (read_with_rules LOCK_BASENAMES fs p))
   ≤ 7 * MAX_FILE_BYTES + 20)%Z ∧
  (startswith (path_name p) ENV_PREFIX = false →
   (Z.of_nat (length (read_with_rules LOCK_BASENAMES fs p))
    ≤ MAX_FILE_BYTES + 20)%Z).
Proof.
  destruct (read_with_rules_nat_length LOCK_BASENAMES fs p) as [H1 H2].
  assert (Hm : Z.of_nat (Z.to_nat MAX_FILE_BYTES) = MAX_FILE_BYTES).
  { unfold MAX_FILE_BYTES. lia. }
  split; [lia|]. intros Henv. specialize (H2 Henv). lia.
Qed.

(** X15.  The budget can be passed by less than the longest content one
    file can have: the returned contents sum to less than
    [MAX_TOTAL_BYTES + 7 * MAX_FILE_BYTES + 20]. *)
Theorem collect_overshoot
    (INCLUDE_EXTS KEY_FILENAMES LOCK_BASENAMES SKIP_DIRS : gset (list N))
    (fs : filesys) (include_readme : bool) (root : listing) :
  (sum_len (collect INCLUDE_EXTS KEY_FILENAMES LOCK_BASENAMES SKIP_DIRS fs
              include_readme root)
   < MAX_TOTAL_BYTES + 7 * MAX_FILE_BYTES + 20)%Z.
Proof.
  pose proof (λ d, collect_elem INCLUDE_EXTS KEY_FILENAMES LOCK_BASENAMES
                     SKIP_DIRS fs include_readme root d) as Helem.
  rewrite collect_run in *.
  pose proof (run_budget INCLUDE_EXTS KEY_FILENAMES LOCK_BASENAMES fs
                include_readme (visit_order SKIP_DIRS [] root) init_state
                within_budget_init) as Hb.
  destruct (run _ _ _ _ _ _ init_state) as [st|ds].
  - destruct Hb as [Htot Hlt]. unfold MAX_FILE_BYTES. lia.
  - destruct Hb as (ds' & d & -> & Hlt & _).
    destruct (Helem d) as (dp & fn & _ & _ & ->);
      [apply elem_of_app; right; by left|].
    rewrite sum_len_app. unfold sum_len at 2. simpl.
    destruct (read_with_rules_nat_length LOCK_BASENAMES fs (dp ++ [fn]))
      as [Hlen _].
    assert (Hm : Z.of_nat (Z.to_nat MAX_FILE_BYTES) = MAX_FILE_BYTES).
    { unfold MAX_FILE_BYTES. lia. }
    lia.
Qed.

Lemma read_with_rules_length_witness :
  (Z.of_nat (length (read_with_rules EX_LOCK_BASENAMES fs_one_line [lit "app.py"]))
   ≤ MAX_FILE_BYTES + 20)%Z.
Proof.
  apply (read_with_rules_length EX_LOCK_BASENAMES fs_one_line [lit "app.py"]).
  reflexivity.
Defined.

(** ** app.py: more on the selection *)

Lemma filter_sublist_impl {A} (P Q : A → Prop)
    `{∀ x, Decision (P x)} `{∀ x, Decision (Q x)} (l : list A) :
  (∀ x, P x → Q x) → filter P l `sublist_of` filter Q l.
Proof.
  intros HPQ. induction l as [|x l IH]; [done|].
  destruct (decide (P x)) as [HP|HP].
  - rewrite !filter_cons_True by auto. by apply sublist_skip.
  - rewrite (filter_cons_False P) by done.
    destruct (decide (Q x)).
    + rewrite filter_cons_True by done. by apply sublist_cons.
    + by rewrite filter_cons_False by done.
Qed.

(** X16.  Raising the threshold never adds an item: the selection for a
    higher threshold is a sublist of the selection for a lower one. *)
Theorem build_selected_monotone
    (assess_files : list Document → list FileAssessment)
    (docs : list Document) (relevance relevance' : Z) :
  (relevance ≤ relevance')%Z →
  (build_selected assess_files docs relevance').1
  `sublist_of` (build_selected assess_files docs relevance).1.
Proof.
  intros Hle. unfold build_selected. simpl. rewrite !select_step_foldl. simpl.
  apply fmap_sublist, filter_sublist_impl.
  intros [a src] [Hi Hs]. split; [done|]. simpl in *. lia.
Qed.

Lemma build_selected_monotone_witness :
  (build_selected assess_high docs_two 5).1
  `sublist_of` (build_selected assess_high docs_two 3).1.
Proof. apply (build_selected_monotone assess_high docs_two 3 5). lia. Defined.

(** X17.  A selected item carries the content of the document paired with
    its assessment, the assessment's score, include flag and reason, the
    assessment's path or, when that is empty, the document's source, and
    no summary; it has no other key. *)
Theorem select_row_fields (a : FileAssessment) (src : Document) :
  select_row a src !! "content" = Some (VStr (content src)) ∧
  select_row a src !! "path"
  = Some (VStr (match path a with [] => source src | _ => path a end)) ∧
  select_row a src !! "score" = Some (VInt (score a)) ∧
  select_row a src !! "include" = Some (VBool (include a)) ∧
  select_row a src !! "reason" = Some (VStr (reason a)) ∧
  select_row a src !! "summary" = None ∧
  dom (select_row a src)
  = ({["path"; "score"; "include"; "reason"; "content"]} : gset string).
Proof.
  unfold select_row, model_dump.
  assert (Hp : or_else (Some (VStr (path a))) (VStr (source src))
               = VStr (match path a with [] => source src | _ => path a end)).
  { simpl. by destruct (path a). }
  split_and!.
  - rewrite lookup_insert_ne by done. by rewrite lookup_insert_eq.
  - rewrite lookup_insert_eq.
    rewrite lookup_insert_ne, lookup_delete_ne, lookup_insert_eq by done.
    by rewrite Hp.
  - rewrite !lookup_insert_ne, lookup_delete_ne, lookup_insert_ne by done.
    by rewrite lookup_insert_eq.
  - rewrite !lookup_insert_ne, lookup_delete_ne, !lookup_insert_ne by done.
    by rewrite lookup_insert_eq.
  - rewrite !lookup_insert_ne, lookup_delete_ne, !lookup_insert_ne by done.
    by rewrite lookup_insert_eq.
  - rewrite !lookup_insert_ne by done. by rewrite lookup_delete_eq.
  - rewrite !dom_insert_L, dom_delete_L, !dom_insert_L, dom_empty_L.
    apply set_eq. intros k. set_unfold. naive_solver.
Qed.

Lemma zip_snd_sublist {A B} (l : list A) (k : list B) :
  (zip l k).*2 `sublist_of` k.
Proof.
  revert k. induction l as [|x l IH]; intros [|y k]; simpl;
    try apply sublist_nil_l.
  by apply sublist_skip.
Qed.

Lemma select_row_content a src :
  select_row a src !! "content" = Some (VStr (content src)).
Proof.
  unfold select_row. rewrite lookup_insert_ne by done.
  by rewrite lookup_insert_eq.
Qed.

Lemma select_row_path a src :
  select_row a src !! "path"
  = Some (VStr (match path a with [] => source src | _ => path a end)).
Proof.
  unfold select_row, model_dump. rewrite lookup_insert_eq.
  rewrite lookup_insert_ne, lookup_delete_ne, lookup_insert_eq by done.
  simpl. by destruct (path a).
Qed.

Lemma select_row_absent a src :
  select_row a src !! "summary" = None ∧ select_row a src !! "source" = None.
Proof.
  unfold select_row, model_dump. split.
  - rewrite !lookup_insert_ne by done. by rewrite lookup_delete_eq.
  - rewrite !lookup_insert_ne, lookup_delete_ne, !lookup_insert_ne by done.
    done.
Qed.

Lemma fallback_row_content d :
  fallback_row d !! "content" = Some (VStr (content d)).
Proof.
  unfold fallback_row. rewrite lookup_insert_ne by done.
  by rewrite lookup_insert_eq.
Qed.

(** The contents of the threshold selection, in order, among those of the
    documents. *)
Lemma build_selected_contents
    (assess_files : list Document → list FileAssessment) docs relevance :
  (λ r : row, r !! "content") <$> (build_selected assess_files docs relevance).1
  = (λ d, Some (VStr (content d)))
      <$> (filter (qualifies relevance) (zip (assess_files docs) docs)).*2.
Proof.
  unfold build_selected. simpl. rewrite select_step_foldl. simpl.
  rewrite <- !list_fmap_compose. apply list_fmap_ext.
  intros _ [a src] _. simpl. apply select_row_content.
Qed.

(** X18.  Whenever documents were collected, the list handed to the
    synthesizer is not empty and no longer than the collected list, and
    the contents of its items are contents of collected documents, in the
    order of collection.  With no document, nothing is handed over. *)
Theorem api_generate_selected_shape
    (assess_files : list Document → list FileAssessment)
    (docs : list Document) (relevance : Z) :
  (docs = [] → api_generate_selected assess_files docs relevance = None) ∧
  (docs ≠ [] →
   ∃ sel, api_generate_selected assess_files docs relevance = Some sel ∧
          (1 ≤ length sel ≤ length docs)%nat ∧
          (λ r : row, r !! "content") <$> sel
          `sublist_of` (λ d, Some (VStr (content d))) <$> docs).
Proof.
  split; [by intros ->|]. intros Hne.
  assert (Hsub : (λ r : row, r !! "content")
                   <$> (build_selected assess_files docs relevance).1
                 `sublist_of` (λ d, Some (VStr (content d))) <$> docs).
  { rewrite build_selected_contents. apply fmap_sublist.
    transitivity ((zip (assess_files docs) docs).*2);
      [apply fmap_sublist, sublist_filter|apply zip_snd_sublist]. }
  assert (Hlen : (length (build_selected assess_files docs relevance).1
                  ≤ length docs)%nat).
  { apply sublist_length in Hsub. by rewrite !length_fmap in Hsub. }
  unfold api_generate_selected.
  destruct docs as [|d ds]; [done|].
  destruct (build_selected assess_files (d :: ds) relevance) as [sel ass].
  simpl in Hsub, Hlen. destruct sel as [|r sel].
  - eexists. split; [done|]. split; [rewrite length_fmap; simpl; lia|].
    rewrite <- list_fmap_compose.
    erewrite list_fmap_ext; [reflexivity|].
    intros _ d' _. simpl. apply fallback_row_content.
  - eexists. split; [done|]. split; [|done]. simpl in *. lia.
Qed.

Lemma api_generate_selected_shape_witness :
  ∃ sel, api_generate_selected assess_high docs_two 3 = Some sel ∧
         (1 ≤ length sel ≤ length docs_two)%nat ∧
         (λ r : row, r !! "content") <$> sel
         `sublist_of` (λ d, Some (VStr (content d))) <$> docs_two.
Proof.
  apply (api_generate_selected_shape assess_high docs_two 3). discriminate.
Defined.

(** ** assessor.py: [_clip] and the requests *)

Lemma clip_nat (s : str) (limit : nat) :
  _clip s (Z.of_nat limit)
  = if bool_decide (length s ≤ limit)%nat then s
    else take limit s ++ TRUNCATED.
Proof.
  unfold _clip. rewrite slice_to_nat.
  repeat case_bool_decide; done || lia.
Qed.

(** X19.  For a limit that is not negative, the sample cut by [_clip] has
    at most [limit + 20] characters and begins with the first [limit]
    characters of the text; a text within the limit is left as it is; and
    clipping twice is clipping once.  The limit is an [int] in the source,
    and for a negative one the bound and the idempotence fail: at
    [limit = -1] the text [abc] becomes [ab] and the marker, 22 characters,
    and clipping that again cuts the marker's last character and appends
    the marker anew. *)
Theorem clip_bounded :
  (∀ (s : str) (limit : Z), (0 ≤ limit)%Z →
     (Z.of_nat (length (_clip s limit)) ≤ limit + 20)%Z ∧
     take (Z.to_nat limit) s `prefix_of` _clip s limit ∧
     ((Z.of_nat (length s) ≤ limit)%Z → _clip s limit = s) ∧
     _clip (_clip s limit) limit = _clip s limit) ∧
  length (_clip (lit "abc") (-1)%Z) = 22%nat ∧
  _clip (_clip (lit "abc") (-1)%Z) (-1)%Z ≠ _clip (lit "abc") (-1)%Z.
Proof.
  split; [|split; [reflexivity|vm_compute; discriminate]].
  intros s z Hz.
  assert (∃ limit, z = Z.of_nat limit) as [limit ->]
    by (exists (Z.to_nat z); lia).
  rewrite Nat2Z.id.
  assert (Hin : ∀ t : str, (length t ≤ limit)%nat →
                  _clip t (Z.of_nat limit) = t).
  { intros t Ht. rewrite clip_nat. by rewrite bool_decide_eq_true_2. }
  assert (Hout : ∀ t : str, ¬ (length t ≤ limit)%nat →
                   _clip t (Z.of_nat limit) = take limit t ++ TRUNCATED).
  { intros t Ht. rewrite clip_nat. by rewrite bool_decide_eq_false_2. }
  destruct (decide (length s ≤ limit)%nat) as [Hle|Hgt].
  - rewrite !Hin by (by rewrite ?Hin). split_and!; [lia| |done..].
    by rewrite take_ge.
  - assert (Hlen : length (take limit s) = limit) by (rewrite length_take; lia).
    assert (Hcut : length (take limit s ++ TRUNCATED) = (limit + 20)%nat).
    { rewrite length_app, Hlen. by change (length TRUNCATED) with 20%nat. }
    rewrite (Hout s Hgt). split_and!.
    + lia.
    + by apply prefix_app_r.
    + lia.
    + rewrite Hout by lia. by rewrite take_app_length'.
Qed.

Lemma assess_input_scalar (str_lower : list N → list N) (f : Document) :
  Forall is_scalar (content f) →
  ∃ bs, encode_utf8 (content f) = Some bs ∧
        (length (content f) ≤ length bs ≤ 4 * length (content f))%nat ∧
        assess_input str_lower f
        = Some (<["path" := VStr (source f)]>
                  (<["ext" := VStr (str_lower (suffix (rel_name (source f))))]>
                     (<["size" := VInt (Z.of_nat (length bs))]>
                        (<["sample" := VStr (_clip (content f)
                                                       (Z.of_nat CLIP_LIMIT))]>
                           ∅)))).
Proof.
  intros Hs. destruct (decode_encode _ Hs) as (bs & Henc & _ & Hlen).
  exists bs. split; [done|]. split; [done|].
  unfold assess_input. by rewrite Henc.
Qed.

(** X20.  For documents whose contents hold only scalar values, building
    the requests does not fail; there is one request per document, in
    order, with the document's source as path, a size in octets between
    the number of characters and four times that number, and a sample of
    at most 4020 characters that starts like the content. *)
Theorem assess_inputs_fields (str_lower : list N → list N)
    (files : list Document) :
  Forall (λ f, Forall is_scalar (content f)) files →
  ∃ inputs,
    assess_inputs str_lower files = Some inputs ∧
    length inputs = length files ∧
    ∀ i f, files !! i = Some f →
      ∃ r size smp,
        inputs !! i = Some r ∧
        r !! "path" = Some (VStr (source f)) ∧
        r !! "size" = Some (VInt size) ∧
        (Z.of_nat (length (content f)) ≤ size
         ≤ 4 * Z.of_nat (length (content f)))%Z ∧
        r !! "sample" = Some (VStr smp) ∧
        (length smp ≤ CLIP_LIMIT + 20)%nat ∧
        take CLIP_LIMIT (content f) `prefix_of` smp.
Proof.
  induction 1 as [|f files Hf Hfiles (inputs & Hin & Hlen & Hfields)].
  - exists []. split; [done|]. split; [done|]. by intros i f ?.
  - destruct (assess_input_scalar str_lower f Hf) as (bs & _ & Hbs & Hr).
    eexists (_ :: inputs). cbn [assess_inputs]. rewrite Hr, Hin.
    split; [done|]. split; [by rewrite length_cons, Hlen|].
    intros [|i] f' Hf'; simpl in Hf'; [|by apply Hfields].
    injection Hf' as <-.
    eexists _, _, _. split; [done|]. split_and!.
    + by rewrite lookup_insert_eq.
    + rewrite !lookup_insert_ne by done. by rewrite lookup_insert_eq.
    + lia.
    + lia.
    + rewrite !lookup_insert_ne by done. by rewrite lookup_insert_eq.
    + rewrite clip_nat. case_bool_decide; [lia|].
      rewrite length_app, length_take. change (length TRUNCATED) with 20%nat.
      lia.
    + rewrite clip_nat. case_bool_decide; [by rewrite take_ge|].
      by apply prefix_app_r.
Qed.

Lemma assess_inputs_fields_witness :
  ∃ inputs,
    assess_inputs lower docs_two = Some inputs ∧
    length inputs = length docs_two ∧
    ∀ i f, docs_two !! i = Some f →
      ∃ r size smp,
        inputs !! i = Some r ∧
        r !! "path" = Some (VStr (source f)) ∧
        r !! "size" = Some (VInt size) ∧
        (Z.of_nat (length (content f)) ≤ size
         ≤ 4 * Z.of_nat (length (content f)))%Z ∧
        r !! "sample" = Some (VStr smp) ∧
        (length smp ≤ CLIP_LIMIT + 20)%nat ∧
        take CLIP_LIMIT (content f) `prefix_of` smp.
Proof.
  apply (assess_inputs_fields lower docs_two).
  constructor; [apply (is_scalar_ascii "print(1)")|].
  constructor; [apply (is_scalar_ascii "A=<YOUR_VALUE>")|constructor].
Defined.

(** X21.  Building a request fails exactly when the content holds a
    surrogate code point, which [encode] refuses. *)
Theorem assess_input_fails (str_lower : list N → list N) (f : Document) :
  Forall (λ c, c < 0x110000) (content f) →
  assess_input str_lower f = None
  ↔ Exists (λ c, 0xD800 ≤ c ∧ c ≤ 0xDFFF) (content f).
Proof.
  intros Hc. rewrite <- (encode_utf8_None _ Hc). unfold assess_input.
  by destruct (encode_utf8 (content f)).
Qed.

Lemma assess_input_fails_witness :
  assess_input lower {| source := lit "a.py"; content := [0x41; 0xD800] |}
  = None.
Proof.
  apply (assess_input_fails lower
           {| source := lit "a.py"; content := [0x41; 0xD800] |}).
  - repeat constructor; simpl; lia.
  - right. left. lia.
Defined.

(** X22.  The collector and the assessor fit: the contents [collect]
    returns hold only scalar values, so the requests for them can always
    be built, one per document. *)
Theorem collect_assessable
    (INCLUDE_EXTS KEY_FILENAMES LOCK_BASENAMES SKIP_DIRS : gset (list N))
    (fs : filesys) (include_readme : bool) (root : listing)
    (str_lower : list N → list N)
    (chain_batch : list row → list FileAssessment) :
  let ds := collect INCLUDE_EXTS KEY_FILENAMES LOCK_BASENAMES SKIP_DIRS fs
              include_readme root in
  Forall (λ d, Forall is_scalar (content d)) ds ∧
  ∃ inputs, assess_inputs str_lower ds = Some inputs ∧
            length inputs = length ds ∧
            assess_files str_lower chain_batch ds = Some (chain_batch inputs).
Proof.
  intros ds.
  assert (Hs : Forall (λ d, Forall is_scalar (content d)) ds).
  { apply Forall_forall. intros d (dp & fn & _ & _ & ->)%collect_elem.
    apply read_with_rules_scalar. }
  split; [done|]. unfold assess_files.
  induction Hs as [|d ds' Hd _ (inputs & Hin & Hlen & _)].
  - by exists [].
  - destruct (assess_input_scalar str_lower d Hd) as (bs & _ & _ & Hr).
    eexists (_ :: inputs). simpl. rewrite Hr, Hin. simpl.
    split; [done|]. split; [by rewrite Hlen|done].
Qed.

(** ** readme_generator.py: the blocks *)

(** X23.  The block of a selected item shows the assessment's path, or
    the document's source when that path is empty, or [UNKNOWN_PATH] when
    both are, and the content of the document, also when it is empty: the
    summary never stands in for it.  The block of a fallback item shows
    the document's source and content in the same way. *)
Theorem format_one_of_rows (a : FileAssessment) (d : Document) :
  _format_one (select_row a d)
  = block (shown_path (path a) (source d)) (content d) ∧
  _format_one (fallback_row d) = block (shown_path [] (source d)) (content d).
Proof.
  split.
  - unfold _format_one.
    destruct (select_row_absent a d) as [Hs Hsrc].
    rewrite select_row_content, select_row_path, Hs, Hsrc. simpl.
    destruct (path a) as [|c r]; destruct (source d), (content d); done.
  - unfold _format_one, fallback_row.
    rewrite lookup_insert_eq.
    rewrite !(lookup_insert_ne _ "path") by done.
    rewrite lookup_insert_eq, !lookup_insert_ne, !lookup_empty by done.
    simpl. destruct (source d), (content d); done.
Qed.

Lemma clip_bounded_witness :
  _clip (_clip (lit "print(1)") 4%Z) 4%Z = _clip (lit "print(1)") 4%Z.
Proof.
  apply (proj1 clip_bounded (lit "print(1)") 4%Z). lia.
Defined.

(** ** C6: reading and decoding never fail *)

(** *** The decoder drops octets and inserts none *)


Lemma byte_to_N_bound (b : Byte.byte) : Byte.to_N b < 256.
Proof. pose proof (Byte.to_N_bounded b). lia. Qed.

Ltac Zify.zify_post_hook ::= Z.to_euclidean_division_equations.




Ltac Zify.zify_post_hook ::= idtac.





(** *** The walk when [Path.is_file] can raise *)

Section raising_facts.

Context (INCLUDE_EXTS KEY_FILENAMES LOCK_BASENAMES SKIP_DIRS : gset (list N)).
Context (fs : filesys) (raises : relpath → bool) (include_readme : bool).

Local Abbreviation visit_r' :=
  (visit_file_r INCLUDE_EXTS KEY_FILENAMES LOCK_BASENAMES fs raises
     include_readme).
Local Abbreviation loop_r' :=
  (files_loop_r INCLUDE_EXTS KEY_FILENAMES LOCK_BASENAMES fs raises
     include_readme).
Local Abbreviation walk_r' :=
  (walk_r INCLUDE_EXTS KEY_FILENAMES LOCK_BASENAMES SKIP_DIRS fs raises
     include_readme).
Local Abbreviation run_r' :=
  (run_r INCLUDE_EXTS KEY_FILENAMES LOCK_BASENAMES fs raises include_readme).
Local Abbreviation run' :=
  (run INCLUDE_EXTS KEY_FILENAMES LOCK_BASENAMES fs include_readme).








End raising_facts.




(** A directory in which [stat] is denied: [is_file] raises for its file
    [b.py], no [try] is around the call, and [collect] ends in the
    exception after [a.py] has been read. *)
Example collect_r_locked :
  collect_r EX_INCLUDE_EXTS EX_KEY_FILENAMES EX_LOCK_BASENAMES EX_SKIP_DIRS
    fs_one_line raises_in_locked false tree_locked = None.
Proof. vm_compute. reflexivity. Qed.
